(** * Retrieval-fusion and budgeting pipeline of the Azure AI Search data source

    A shallow embedding of the two [AzureAISearchDataSource] classes (the
    hybrid single-query pipeline and the vector-only variant) together with
    the properties their specification states about them.

    JavaScript strings are sequences of UTF-16 code units; they are modelled
    as [list Z], one integer per code unit.  Numbers that the code uses as
    counts, indices and budgets are modelled as [Z]; relevance scores are
    IEEE binary64 values and are modelled by Rocq's primitive floats. *)

From Stdlib Require Import ZArith Lia Bool List String Ascii Floats Uint63.
From Stdlib Require Import HexadecimalString HexadecimalPos HexadecimalZ.
From stdpp Require Import base list gmap.

#[local] Set Warnings "-inexact-float".
Open Scope Z_scope.

Abbreviation jsstring := (list Z) (only parsing).

(** ** JavaScript string primitives used by the classes *)

Module JS.

(** An ASCII literal as a sequence of code units. *)
Definition lit (s : string) : jsstring :=
  List.map (fun a => Z.of_N (N_of_ascii a)) (list_ascii_of_string s).

Definition LF : Z := 10.
Definition CR : Z := 13.
Definition TAB : Z := 9.
Definition SP : Z := 32.
Definition QUOTE : Z := 34.
Definition ELLIPSIS : Z := 8230. (* U+2026 *)

(** [String.prototype.length]. *)
Definition len (s : jsstring) : Z := Z.of_nat (length s).

(** ECMAScript WhiteSpace and LineTerminator code points: the set removed
    by [String.prototype.trim] and matched by the regular expression
    class [\s]. *)
Definition isSpace (c : Z) : bool :=
  (c =? 9) || (c =? 10) || (c =? 11) || (c =? 12) || (c =? 13) || (c =? 32)
  || (c =? 160) || (c =? 5760) || ((8192 <=? c) && (c <=? 8202))
  || (c =? 8232) || (c =? 8233) || (c =? 8239) || (c =? 8287)
  || (c =? 12288) || (c =? 65279).

(** Removal of the longest prefix, respectively suffix, made of code units
    satisfying [f]. *)
Fixpoint lstrip (f : Z -> bool) (s : jsstring) : jsstring :=
  match s with
  | [] => []
  | c :: t => if f c then lstrip f t else s
  end.

Fixpoint rstrip (f : Z -> bool) (s : jsstring) : jsstring :=
  match s with
  | [] => []
  | c :: t =>
      match rstrip f t with
      | [] => if f c then [] else [c]
      | t' => c :: t'
      end
  end.

(** [String.prototype.trim]. *)
Definition trim (s : jsstring) : jsstring := rstrip isSpace (lstrip isSpace s).

(** [replace(/C+/g, " ")] for a character class [C] given by [f]: every
    run of units of the class becomes one space, emitted when the last
    unit of the run is reached. *)
Fixpoint collapseRuns (f : Z -> bool) (s : jsstring) : jsstring :=
  match s with
  | [] => []
  | c :: t =>
      if f c then
        match t with
        | c' :: _ => if f c' then collapseRuns f t else SP :: collapseRuns f t
        | [] => [SP]
        end
      else c :: collapseRuns f t
  end.

(** [Array.prototype.join]. *)
Fixpoint join (sep : jsstring) (parts : list jsstring) : jsstring :=
  match parts with
  | [] => []
  | [p] => p
  | p :: rest => p ++ sep ++ join sep rest
  end.

(** [String.prototype.split] with the one-code-unit separator [sep]. *)
Fixpoint split (sep : Z) (s : jsstring) : list jsstring :=
  match s with
  | [] => [[]]
  | c :: t =>
      if c =? sep then [] :: split sep t
      else match split sep t with
           | l :: ls => (c :: l) :: ls
           | [] => [[c]]
           end
  end.

(** Does [p] occur at the beginning of [s]? *)
Fixpoint startsWith (p s : jsstring) : bool :=
  match p, s with
  | [], _ => true
  | _ :: _, [] => false
  | a :: p', b :: s' => (a =? b) && startsWith p' s'
  end.

(** [String.prototype.indexOf]: position of the first occurrence of [p]
    in [s], counted from [i], or -1. *)
Fixpoint indexOfFrom (p s : jsstring) (i : Z) : Z :=
  match s with
  | [] => if startsWith p [] then i else -1
  | _ :: t => if startsWith p s then i else indexOfFrom p t (i + 1)
  end.

Definition indexOf (s p : jsstring) : Z := indexOfFrom p s 0.

(** [String.prototype.lastIndexOf]: position of the last occurrence of
    [p] in [s], or -1.  [best] is the last occurrence seen so far. *)
Fixpoint lastIndexOfFrom (p s : jsstring) (i best : Z) : Z :=
  match s with
  | [] => if startsWith p [] then i else best
  | _ :: t => lastIndexOfFrom p t (i + 1) (if startsWith p s then i else best)
  end.

Definition lastIndexOf (s p : jsstring) : Z := lastIndexOfFrom p s 0 (-1).

(** [String.prototype.slice(from, to)]: negative positions count from the
    end, positions are clamped to the string, an empty range gives the
    empty string. *)
Definition clampIndex (n i : Z) : Z :=
  if i <? 0 then Z.max (n + i) 0 else Z.min i n.

Definition slice (s : jsstring) (from to : Z) : jsstring :=
  let a := clampIndex (len s) from in
  let b := clampIndex (len s) to in
  take (Z.to_nat (b - a)) (drop (Z.to_nat a) s).

(** [Array.prototype.slice(0, n)] on an array. *)
Definition slice_list {A} (l : list A) (n : Z) : list A :=
  take (Z.to_nat (clampIndex (Z.of_nat (length l)) n)) l.

(** [s.slice(from)]. *)
Definition sliceFrom (s : jsstring) (from : Z) : jsstring :=
  slice s from (len s).

End JS.

Import JS.

(** ** Data model shared by the two classes *)

(** [OneDriveChunkDocument]: every field is optional or nullable in the
    source; [None] stands for both [undefined] and [null]. *)
Record OneDriveChunkDocument := {
  chunk_id : option jsstring;
  parent_id : option jsstring;
  title : option jsstring;
  chunk : option jsstring;
  text_vector : option (list float)
}.

(** One search hit: [{ document, score? }]. *)
Record SearchResult := {
  document : OneDriveChunkDocument;
  score : option float
}.

(** JavaScript truthiness of an optional string: present and non-empty. *)
Definition truthy (o : option jsstring) : bool :=
  match o with
  | Some (_ :: _) => true
  | _ => false
  end.

(** [escapeAttr]: every double quote becomes [&quot;]. *)
Definition escapeAttr (v : jsstring) : jsstring :=
  flat_map (fun c => if c =? QUOTE then lit "&quot;" else [c]) v.

(** ** Calls to the external collaborators *)

(** What a pipeline sends to the search client: the text query, the
    query vector, [top] and [kNearestNeighborsCount]. *)
Record SearchRequest := {
  searchText : jsstring;
  searchVector : list float;
  searchTop : Z;
  searchKnn : Z
}.

(** The shapes in which the search client may hand back its hits. *)
Inductive SearchResponse :=
| ResultsIterable (rs : list SearchResult)  (* res.results is async iterable *)
| TopLevelIterable (rs : list SearchResult) (* res itself is async iterable *)
| ValuePage (rs : list SearchResult)        (* res.value is an array *)
| OtherShape.

(** An asynchronous method of the classes: a tree whose nodes are the
    awaited provider calls and whose leaves are the returned value or the
    thrown error.  [Embed] stands for [embeddings.create] and hands the
    [data] array of embeddings to its continuation, [Search] for
    [searchClient.search]. *)
Inductive Prog (A : Type) : Type :=
| Ret (a : A)
| Throw (message : jsstring)
| Embed (input : jsstring) (k : list (list float) -> Prog A)
| Search (req : SearchRequest) (k : SearchResponse -> Prog A).

Arguments Ret {A} a.
Arguments Throw {A} message.
Arguments Embed {A} input k.
Arguments Search {A} req k.

Fixpoint bind {A B} (m : Prog A) (f : A -> Prog B) : Prog B :=
  match m with
  | Ret a => f a
  | Throw e => Throw e
  | Embed input k => Embed input (fun r => bind (k r) f)
  | Search req k => Search req (fun r => bind (k r) f)
  end.

#[global] Instance Prog_ret : MRet Prog := @Ret.
#[global] Instance Prog_bind : MBind Prog := fun A B f m => bind m f.

(** The result of a promise. *)
Inductive Outcome (A : Type) : Type :=
| Resolved (a : A)
| Rejected (reason : jsstring).

Arguments Resolved {A} a.
Arguments Rejected {A} reason.

(** The behaviour of the two collaborators during one call. *)
Record Providers := {
  embeddingsCreate : jsstring -> Outcome (list (list float));
  clientSearch : SearchRequest -> Outcome SearchResponse
}.

Inductive Call :=
| EmbedCall (input : jsstring)
| SearchCall (req : SearchRequest).

(** Running a method against given collaborators: the outcome and the
    provider calls that were made, in order. *)
Fixpoint run {A} (P : Providers) (m : Prog A) : Outcome A * list Call :=
  match m with
  | Ret a => (Resolved a, [])
  | Throw e => (Rejected e, [])
  | Embed input k =>
      match embeddingsCreate P input with
      | Resolved data =>
          let '(r, calls) := run P (k data) in (r, EmbedCall input :: calls)
      | Rejected e => (Rejected e, [EmbedCall input])
      end
  | Search req k =>
      match clientSearch P req with
      | Resolved res =>
          let '(r, calls) := run P (k res) in (r, SearchCall req :: calls)
      | Rejected e => (Rejected e, [SearchCall req])
      end
  end.

(** ** The hybrid single-query class *)

Module Hybrid.

(** The retrieval knobs after the constructor has merged the defaults;
    the two score thresholds are still read with a [??] fallback. *)
Record Options := {
  kNearestNeighborsCount : Z;
  topPerVariant : Z;
  maxTotalAfterFusion : Z;
  maxPerParent : Z;
  minTopScore : option float;
  minScoreGap : option float;
  maxContextTokens : Z
}.

(** [it.document.parent_id ?? it.document.chunk_id ?? "_"]. *)
Definition parentKey (d : OneDriveChunkDocument) : jsstring :=
  default (default (lit "_") (chunk_id d)) (parent_id d).

(** *** limitByParentAndTotal *)

(** The loop of [limitByParentAndTotal]; [perParent] is the [Map] of
    admissions per parent and [out] the array built so far. *)
Fixpoint limitLoop (items : list SearchResult) (maxPerParent maxTotal : Z)
    (perParent : gmap (list Z) Z) (out : list SearchResult)
    : list SearchResult :=
  match items with
  | [] => out
  | it :: rest =>
      let parent := parentKey (document it) in
      let n := default 0 (perParent !! parent) in
      if n <? maxPerParent then
        let out' := out ++ [it] in
        let perParent' := <[parent := n + 1]> perParent in
        if Z.of_nat (length out') >=? maxTotal then out'
        else limitLoop rest maxPerParent maxTotal perParent' out'
      else limitLoop rest maxPerParent maxTotal perParent out
  end.

Definition limitByParentAndTotal (items : list SearchResult)
    (maxPerParent maxTotal : Z) : list SearchResult :=
  limitLoop items maxPerParent maxTotal ∅ [].

(** *** shouldClarify *)

(** [items[i]?.score ?? 0]. *)
Definition scoreAt (items : list SearchResult) (i : nat) : float :=
  match items !! i with
  | Some it => default 0%float (score it)
  | None => 0%float
  end.

(** The value returned by [shouldClarify]; the [console.debug] call and
    the [distinctParents] count it prints do not influence the result. *)
Definition shouldClarify (o : Options) (items : list SearchResult) : bool :=
  if (length items =? 0)%nat then true
  else if (3 <=? length items)%nat then false
  else
    let s1 := scoreAt items 0 in
    let s2 := scoreAt items 1 in
    let lowTop := PrimFloat.ltb s1 (default 0.12%float (minTopScore o)) in
    let smallGap :=
      PrimFloat.ltb (PrimFloat.sub s1 s2) (default 0.01%float (minScoreGap o)) in
    lowTop && smallGap.

(** *** groupByParent *)

Record Group := {
  g_title : option jsstring;
  g_chunks : list jsstring
}.

(** The [Map] of [groupByParent] keeps its keys in insertion order, which
    is the order of the returned array: an association list. *)
Fixpoint mapGet (k : jsstring) (m : list (jsstring * Group)) : option Group :=
  match m with
  | [] => None
  | (k', g) :: m' => if decide (k = k') then Some g else mapGet k m'
  end.

Fixpoint mapSet (k : jsstring) (g : Group) (m : list (jsstring * Group))
    : list (jsstring * Group) :=
  match m with
  | [] => [(k, g)]
  | (k', g') :: m' =>
      if decide (k = k') then (k', g) :: m' else (k', g') :: mapSet k g m'
  end.

Definition groupStep (m : list (jsstring * Group)) (it : SearchResult)
    : list (jsstring * Group) :=
  let d := document it in
  let parent := parentKey d in
  let g := default {| g_title := title d; g_chunks := [] |} (mapGet parent m) in
  let g1 :=
    if truthy (chunk d)
    then {| g_title := g_title g; g_chunks := g_chunks g ++ [default [] (chunk d)] |}
    else g in
  let g2 :=
    if negb (truthy (g_title g1)) && truthy (title d)
    then {| g_title := title d; g_chunks := g_chunks g1 |}
    else g1 in
  mapSet parent g2 m.

Definition groupByParent (items : list SearchResult) : list Group :=
  List.map snd (fold_left groupStep items []).

(** *** Whitespace and size helpers *)

(** [Math.ceil(text.length / 4)]. *)
Definition estimateTokens (text : jsstring) : Z := (len text + 3) / 4.

Definition isBreak (c : Z) : bool := (c =? LF) || (c =? SP) || (c =? TAB).

(** The class [[ \t\r\n]] of the trailing-whitespace pattern. *)
Definition isTrailing (c : Z) : bool :=
  (c =? SP) || (c =? TAB) || (c =? CR) || (c =? LF).

(** [lastBreak > maxChars * 0.6].  Both operands are integers; the
    product with the binary64 constant 0.6 rounds to an integer exactly
    when three fifths of [maxChars] is one, so the test is the exact
    comparison [5 * lastBreak > 3 * maxChars] (compare
    [pastSixtyPercent_binary64] below). *)
Definition pastSixtyPercent (lastBreak maxChars : Z) : bool :=
  3 * maxChars <? 5 * lastBreak.

Definition safeTrimToChars (s : jsstring) (maxChars : Z) : jsstring :=
  if len s <=? maxChars then s
  else
    let slice0 := slice s 0 (Z.max 0 (maxChars - 1)) in
    let lastBreak :=
      Z.max (Z.max (lastIndexOf slice0 [LF]) (lastIndexOf slice0 [SP]))
            (lastIndexOf slice0 [TAB]) in
    let cut :=
      if pastSixtyPercent lastBreak maxChars then slice slice0 0 lastBreak
      else slice0 in
    rstrip isTrailing cut ++ [ELLIPSIS].

Definition closeTag : jsstring := lit "</context>".

(** What the stitcher pushes for a piece that does not fit while
    [remaining] tokens are left. *)
Definition trimPiece (p : jsstring) (remaining : Z) : jsstring :=
  let approxChars := remaining * 4 in
  let openIdx := indexOf p (lit ">") in
  let closeIdx := lastIndexOf p closeTag in
  if negb (openIdx =? -1) && negb (closeIdx =? -1) then
    let head := slice p 0 (openIdx + 1) in
    let body := slice p (openIdx + 1) closeIdx in
    let tail := sliceFrom p closeIdx in
    head ++ safeTrimToChars body approxChars ++ tail
  else safeTrimToChars p approxChars.

(** The loop of [stitchWithTokenBudget]: [out] is the array of kept
    pieces and [used] the tokens spent on them. *)
Fixpoint stitchLoop (pieces : list jsstring) (maxTokens : Z)
    (out : list jsstring) (used : Z) : list jsstring :=
  match pieces with
  | [] => out
  | p :: rest =>
      let t := estimateTokens p in
      if used + t <=? maxTokens then
        stitchLoop rest maxTokens (out ++ [p]) (used + t)
      else
        let remaining := Z.max 0 (maxTokens - used) in
        if remaining <=? 0 then out
        else out ++ [trimPiece p remaining]
  end.

(** The [stitched] field of the object [stitchWithTokenBudget] returns. *)
Definition stitchWithTokenBudget (pieces : list jsstring) (maxTokens : Z)
    : jsstring :=
  join [LF] (stitchLoop pieces maxTokens [] 0).

(** *** compactWhitespace *)

(** The class [[\u200B-\u200D\uFEFF\u2028\u2029]]. *)
Definition isZeroWidth (c : Z) : bool :=
  ((8203 <=? c) && (c <=? 8205)) || (c =? 65279) || (c =? 8232) || (c =? 8233).

Definition removeZeroWidth (s : jsstring) : jsstring :=
  List.filter (fun c => negb (isZeroWidth c)) s.

(** [replace(/\r\n?/g, "\n")]. *)
Fixpoint normalizeLineEndings (s : jsstring) : jsstring :=
  match s with
  | [] => []
  | c :: t =>
      if c =? CR then
        LF :: match t with
              | c' :: t' =>
                  if c' =? LF then normalizeLineEndings t'
                  else normalizeLineEndings t
              | [] => []
              end
      else c :: normalizeLineEndings t
  end.

Definition isBlank (c : Z) : bool := (c =? SP) || (c =? TAB).

(** The callback applied to every line. *)
Definition compactLine (line : jsstring) : jsstring :=
  trim (collapseRuns isBlank line).

(** [replace(/\n{3,}/g, "\n\n")]: of a run of line feeds only the
    first two are kept; [k] counts the line feeds immediately before. *)
Fixpoint collapseNewlinesFrom (k : nat) (s : jsstring) : jsstring :=
  match s with
  | [] => []
  | c :: t =>
      if c =? LF then
        match k with
        | S (S _) => collapseNewlinesFrom k t
        | _ => LF :: collapseNewlinesFrom (S k) t
        end
      else c :: collapseNewlinesFrom 0 t
  end.

Definition collapseNewlines (s : jsstring) : jsstring :=
  collapseNewlinesFrom 0 s.

Definition compactWhitespace (s : jsstring) : jsstring :=
  match s with
  | [] => []
  | _ =>
      let out := removeZeroWidth s in
      let out := normalizeLineEndings out in
      let out := join [LF] (List.map compactLine (split LF out)) in
      let out := collapseNewlines out in
      trim out
  end.

(** *** dedupeByHash and hashString *)

(** [x | 0]: reduction to a signed 32-bit integer. *)
Definition toInt32 (x : Z) : Z := (x + 2 ^ 31) mod 2 ^ 32 - 2 ^ 31.

(** [Number.prototype.toString(16)] on an integer. *)
Definition toString16 (h : Z) : jsstring :=
  lit (NilZero.string_of_int (Z.to_hex_int h)).

Definition hashString (s : jsstring) : jsstring :=
  toString16 (fold_left (fun h c => toInt32 (h * 31 + c)) s 0).

Fixpoint dedupeLoop (chunks : list jsstring) (seen : gset (list Z))
    (out : list jsstring) : list jsstring :=
  match chunks with
  | [] => out
  | c :: rest =>
      let key := hashString c in
      if decide (key ∈ seen) then dedupeLoop rest seen out
      else dedupeLoop rest ({[key]} ∪ seen) (out ++ [c])
  end.

Definition dedupeByHash (chunks : list jsstring) : list jsstring :=
  dedupeLoop chunks ∅ [].

(** *** firstNSentences and formatDocument *)

Definition isTerminator (c : Z) : bool :=
  (c =? 46) || (c =? 33) || (c =? 63). (* . ! ? *)

(** [split(/(?<=[.!?])\s+/)]: a separator is a maximal run of white
    space that directly follows a sentence terminator.  [prev] tells
    whether the unit before the current position is a terminator,
    [skipping] whether the position lies inside a separator, and [cur]
    holds the current part in reverse. *)
Fixpoint splitSentencesFrom (prev skipping : bool) (cur : jsstring)
    (s : jsstring) : list jsstring :=
  match s with
  | [] => [rev cur]
  | c :: t =>
      if skipping then
        if isSpace c then splitSentencesFrom false true [] t
        else splitSentencesFrom (isTerminator c) false [c] t
      else if isSpace c && prev then
        rev cur :: splitSentencesFrom false true [] t
      else splitSentencesFrom (isTerminator c) false (c :: cur) t
  end.

Definition splitSentences (text : jsstring) : list jsstring :=
  splitSentencesFrom false false [] text.

Definition firstNSentences (text : jsstring) (n : Z) : jsstring :=
  let parts := List.filter (fun p => 0 <? len p) (splitSentences text) in
  join [SP] (slice_list parts n).

Definition formatDocument (content citation : jsstring) : jsstring :=
  let clean := compactWhitespace content in
  match clean with
  | [] => []
  | _ =>
      lit "<context source=" ++ [QUOTE] ++ escapeAttr citation ++ [QUOTE]
        ++ lit ">" ++ [LF] ++ clean ++ [LF] ++ closeTag
  end.

(** *** Provider adapters *)

Definition getEmbeddingVector (text : jsstring) : Prog (list float) :=
  Embed text (fun data =>
    match data with
    | [] => Throw (lit "Failed to generate embeddings for text.")
    | e :: _ => Ret e
    end).

(** [searchCollect] iterates [res.results ?? res]; a response that is not
    iterable makes the [for await] throw a [TypeError]. *)
Definition searchCollect (o : Options) (query : jsstring)
    (vector : list float) (top : Z) : Prog (list SearchResult) :=
  Search {| searchText := query; searchVector := vector; searchTop := top;
            searchKnn := kNearestNeighborsCount o |}
    (fun res =>
       match res with
       | ResultsIterable rs => Ret rs
       | TopLevelIterable rs => Ret rs
       | ValuePage _ | OtherShape => Throw (lit "TypeError: not async iterable")
       end).

(** *** renderContext *)

(** The body of the loop over the groups: the block a group contributes
    to [contexts], if any. *)
Definition condense (g : Group) : jsstring :=
  let normalizedChunks :=
    List.filter (fun c => 0 <? len c) (List.map compactWhitespace (g_chunks g)) in
  let deduped := dedupeByHash normalizedChunks in
  firstNSentences (join [SP] deduped) 4.

Definition groupBlock (g : Group) : list jsstring :=
  let title := default (lit "(untitled)") (g_title g) in
  let piece := formatDocument (condense g) title in
  if 0 <? len (trim piece) then [piece] else [].

(** Everything after the retrieval call. *)
Definition buildContext (o : Options) (ranked : list SearchResult) : jsstring :=
  if shouldClarify o ranked then []
  else
    let picked :=
      limitByParentAndTotal ranked (maxPerParent o) (maxTotalAfterFusion o) in
    let grouped := groupByParent picked in
    let contexts := flat_map groupBlock grouped in
    stitchWithTokenBudget contexts (maxContextTokens o).

Definition renderContext (o : Options) (query : jsstring) : Prog jsstring :=
  match query with
  | [] => Ret []
  | _ =>
      qVec ← getEmbeddingVector query;
      ranked ← searchCollect o query qVec (topPerVariant o);
      Ret (buildContext o ranked)
  end.

End Hybrid.

(** ** The vector-only class *)

Module VectorOnly.

Record Options := {
  kNearestNeighborsCount : Z;
  top : Z;
  maxReturn : Z
}.

Section WithEnvironment.

(** [cleanContent] is a pure function from strings to strings made of
    five regular-expression replacements (media file names, style
    fragments, markup tags, white space, [fill:#...] residue).  Nothing
    below depends on what it computes; it is a parameter here. *)
Variable cleanContent : jsstring -> jsstring.

Definition getEmbeddingVector (text : jsstring) : Prog (list float) :=
  Embed text (fun data =>
    match data with
    | [] => Throw (lit "Failed to generate embeddings.")
    | e :: _ => Ret e
    end).

Definition searchVectorOnly (vector : list float) (top kNearestNeighborsCount : Z)
    : Prog (list SearchResult) :=
  Search {| searchText := []; searchVector := vector; searchTop := top;
            searchKnn := kNearestNeighborsCount |}
    (fun res =>
       match res with
       | ResultsIterable rs => Ret rs
       | TopLevelIterable rs => Ret rs
       | ValuePage rs => Ret rs
       | OtherShape =>
           Throw (lit "Unexpected search() return shape; not iterable.")
       end).

(** The comparator [(a, b) => (b.score ?? 0) - (a.score ?? 0)]. *)
Definition byScoreDesc (a b : SearchResult) : float :=
  PrimFloat.sub (default 0%float (score b)) (default 0%float (score a)).

(** The stable sort by this comparator: an element moves behind exactly
    the elements the comparator orders strictly before it.  This is the
    order [Array.prototype.sort] has to produce whenever the comparator
    is consistent on the array, which it is as long as no score is NaN
    (a NaN result of the comparator counts as 0). *)
Fixpoint insertSorted (x : SearchResult) (l : list SearchResult)
    : list SearchResult :=
  match l with
  | [] => [x]
  | y :: t =>
      if PrimFloat.ltb 0%float (byScoreDesc x y) then y :: insertSorted x t
      else x :: l
  end.

Definition sortByScore (l : list SearchResult) : list SearchResult :=
  foldr insertSorted [] l.

Definition formatDocument (content citation : jsstring) : jsstring :=
  lit "<context source=" ++ [QUOTE] ++ escapeAttr citation ++ [QUOTE]
    ++ lit ">" ++ [LF] ++ content ++ [LF] ++ lit "</context>".

(** [results.sort(...)] as the engine performs it.  With a score that is
    NaN the comparator is not consistent and the language leaves the
    order to the engine, so the sort of the engine is a parameter;
    [SortsByScore] below states what the language guarantees of it. *)
Variable arraySort : list SearchResult -> list SearchResult.

(** The body of the loop over the top hits. *)
Definition resultBlock (r : SearchResult) : list jsstring :=
  let title := default (lit "(untitled)") (title (document r)) in
  let text := cleanContent (default [] (chunk (document r))) in
  match trim text with
  | [] => []
  | _ => [formatDocument text title]
  end.

(** Everything after the sort: [results] is the sorted array. *)
Definition buildContext (o : Options) (results : list SearchResult) : jsstring :=
  let topN := slice_list results (maxReturn o) in
  let contexts := flat_map resultBlock topN in
  trim (collapseRuns isSpace (join [LF] contexts)).

(** The [console.log] of the stitched string is not modelled. *)
Definition renderContext (o : Options) (query : jsstring) : Prog jsstring :=
  match query with
  | [] => Ret []
  | _ =>
      match trim query with
      | [] => Ret []
      | _ =>
          qVec ← getEmbeddingVector query;
          results ← searchVectorOnly qVec (top o) (kNearestNeighborsCount o);
          Ret (buildContext o (arraySort results))
      end
  end.

End WithEnvironment.

End VectorOnly.

(** ** The conversation helpers of the bot *)

Module App.

(** A chat message: its role ([system], [user], [model], ...) and its
    text. *)
Record Message := {
  role : jsstring;
  content : jsstring
}.

Definition MAX_MESSAGES : Z := 10.

Definition isSystem (m : Message) : bool :=
  bool_decide (role m = lit "system").

(** [Array.prototype.slice(from)] on an array. *)
Definition sliceFromList {A} (l : list A) (from : Z) : list A :=
  drop (Z.to_nat (clampIndex (Z.of_nat (length l)) from)) l.

(** [trimToLastN]: the first system message, then the last messages that
    are not system messages. *)
Definition trimToLastN (messages : list Message) (max : Z) : list Message :=
  if max <=? 0 then []
  else
    let headSystem := List.find isSystem messages in
    let nonSystem := List.filter (fun m => negb (isSystem m)) messages in
    let tailBudget :=
      match headSystem with
      | Some _ => Z.max 0 (max - 1)
      | None => max
      end in
    let trimmedTail := sliceFromList nonSystem (- tailBudget) in
    match headSystem with
    | Some h => h :: trimmedTail
    | None => trimmedTail
    end.

(** [String.prototype.endsWith]. *)
Definition endsWith (s suffix : jsstring) : bool :=
  (length suffix <=? length s)%nat
  && bool_decide (drop (length s - length suffix) s = suffix).

(** [LocalStorage] of the SDK as the helper uses it.  The class is not
    among the sources; the helper relies on two of its members: [keys],
    the storage's own array of keys, and [delete], which takes the key
    out of that array and drops its entry.  The array the helper walks
    over is therefore the one that [delete] shortens. *)
Record LocalStorage := {
  keys : list jsstring;
  entries : gmap (list Z) (list Message)
}.

(** [Array.prototype.splice(indexOf(key), 1)]. *)
Fixpoint removeFirst (key : jsstring) (l : list jsstring) : list jsstring :=
  match l with
  | [] => []
  | k :: t => if decide (k = key) then t else k :: removeFirst key t
  end.

Definition storageDelete (key : jsstring) (storage : LocalStorage) : LocalStorage :=
  {| keys := removeFirst key (keys storage);
     entries := delete key (entries storage) |}.

(** The loop [for (const key of allKeys)]: the iterator reads
    [allKeys[i]] for [i = 0, 1, ...] and stops when [i] has reached the
    length the array has at that moment.  The array only gets shorter,
    so [fuel] steps are enough when [fuel] is its length at the start. *)
Fixpoint purgeLoop (fuel i : nat) (userId currentConversationKey : jsstring)
    (storage : LocalStorage) : LocalStorage :=
  match fuel with
  | O => storage
  | S fuel' =>
      match keys storage !! i with
      | None => storage
      | Some key =>
          let suffix := lit "/" ++ userId in
          if negb (endsWith key suffix) then
            purgeLoop fuel' (S i) userId currentConversationKey storage
          else if bool_decide (key = currentConversationKey) then
            purgeLoop fuel' (S i) userId currentConversationKey storage
          else
            purgeLoop fuel' (S i) userId currentConversationKey
              (storageDelete key storage)
      end
  end.

Definition purgeOlderConversationsForUser
    (storage : LocalStorage) (userId currentConversationKey : jsstring)
    : LocalStorage :=
  match keys storage with
  | [] => storage
  | _ => purgeLoop (length (keys storage)) 0 userId currentConversationKey storage
  end.

(** The key under which the handler stores a conversation. *)
Definition conversationKey (conversationId userId : jsstring) : jsstring :=
  conversationId ++ lit "/" ++ userId.

End App.

(** * Vocabulary of the properties *)

Import Hybrid.

(** ** Scores and thresholds of the gate *)

(** The score of the best hit and of the runner-up; a hit without a score,
    like a missing hit, counts as 0. *)
Definition topScore (items : list SearchResult) : float :=
  match items with
  | c :: _ => default 0%float (score c)
  | [] => 0%float
  end.

Definition secondScore (items : list SearchResult) : float :=
  match items with
  | _ :: c :: _ => default 0%float (score c)
  | _ => 0%float
  end.

Definition effectiveMinTopScore (o : Options) : float :=
  default 0.12%float (minTopScore o).

Definition effectiveMinScoreGap (o : Options) : float :=
  default 0.01%float (minScoreGap o).

(** ** Admissions per parent *)

(** How many entries of [l] belong to the parent [p]. *)
Fixpoint countParent (p : jsstring) (l : list SearchResult) : Z :=
  match l with
  | [] => 0
  | it :: rest =>
      (if decide (parentKey (document it) = p) then 1 else 0) + countParent p rest
  end.

(** The loop invariant of [limitByParentAndTotal]: the map holds the
    number of admitted entries of every parent, none above the cap. *)
Definition limitInv (maxPerParent : Z) (perParent : gmap (list Z) Z)
    (out : list SearchResult) : Prop :=
  forall p, default 0 (perParent !! p) = countParent p out
            /\ countParent p out <= Z.max 0 maxPerParent.

(** ** The shape of normalized text *)

(** Units that never occur in normalized text. *)
Definition okUnit (c : Z) : Prop :=
  isZeroWidth c = false /\ c <> CR /\ c <> TAB.

Definition noDoubleSpace (a b : Z) : Prop := ~ (a = SP /\ b = SP).

(** Neighbouring units of normalized text: never two spaces, and next to
    a line feed only a line feed or a unit that is not white space. *)
Definition okPair (a b : Z) : Prop :=
  noDoubleSpace a b
  /\ (a = LF -> b = LF \/ isSpace b = false)
  /\ (b = LF -> a = LF \/ isSpace a = false).

(** [R] holds between [prev] and the first unit of [s] and between all
    neighbours in [s]. *)
Fixpoint chain (R : Z -> Z -> Prop) (prev : Z) (s : jsstring) : Prop :=
  match s with
  | [] => True
  | c :: t => R prev c /\ chain R c t
  end.

Definition pairwise (R : Z -> Z -> Prop) (s : jsstring) : Prop :=
  match s with
  | [] => True
  | c :: t => chain R c t
  end.

(** No run of line feeds in [s] is longer than two, [k] line feeds
    standing immediately before [s]. *)
Fixpoint lfRuns (k : nat) (s : jsstring) : Prop :=
  match s with
  | [] => True
  | c :: t => if c =? LF then (k < 2)%nat /\ lfRuns (S k) t else lfRuns 0 t
  end.

(** The first, respectively last, unit is not white space. *)
Definition headOk (s : jsstring) : Prop :=
  match s with
  | c :: _ => isSpace c = false
  | [] => True
  end.

Definition lastOk (s : jsstring) : Prop :=
  match last s with
  | Some c => isSpace c = false
  | None => True
  end.

(** Normalized text: no unit of the removed class, no carriage return,
    no tab, no two spaces in a row, no white space at the edge of a line
    or of the text, and never three line feeds in a row. *)
Definition Compact (s : jsstring) : Prop :=
  Forall okUnit s /\ pairwise okPair s /\ lfRuns 0 s /\ headOk s /\ lastOk s.

(** A line after [compactLine]. *)
Definition LineTidy (l : jsstring) : Prop :=
  Forall okUnit l /\ Forall (fun c => c <> LF) l
  /\ pairwise noDoubleSpace l /\ headOk l /\ lastOk l.

(** A line that may still begin with white space. *)
Definition RightTidy (l : jsstring) : Prop :=
  Forall (fun c => c <> TAB) l /\ pairwise noDoubleSpace l /\ lastOk l.

(** ** Deduplication by text *)


(** ** Budget and cuts *)

(** Tokens spent on a list of pieces that are kept whole. *)
Fixpoint tokensOf (pieces : list jsstring) : Z :=
  match pieces with
  | [] => 0
  | p :: rest => estimateTokens p + tokensOf rest
  end.

(** Position of the last unit of [s] that satisfies [f], counted from
    [i], or [best] when there is none. *)
Fixpoint lastWhereFrom (f : Z -> bool) (s : jsstring) (i best : Z) : Z :=
  match s with
  | [] => best
  | c :: t => lastWhereFrom f t (i + 1) (if f c then i else best)
  end.

(** Where the trimmer cuts a text [s] that is longer than the limit [n]:
    [kept] is the part of [s] that survives the cut.  Among the first
    [n - 1] units either the last newline, space or tab lies past 60% of
    [n] and [kept] ends right before it, or [kept] is all of them. *)
Definition CutsAt (s : jsstring) (n : Z) (kept : jsstring) : Prop :=
  let w := take (Z.to_nat (n - 1)) s in
  (exists c b, w = kept ++ c :: b /\ isBreak c = true
      /\ Forall (fun x => isBreak x = false) b /\ 3 * n < 5 * len kept)
  \/ (kept = w
      /\ forall a c b, w = a ++ c :: b -> isBreak c = true ->
           Forall (fun x => isBreak x = false) b -> 5 * len a <= 3 * n).

Definition floatOfZ (z : Z) : float :=
  if z <? 0 then PrimFloat.opp (PrimFloat.of_uint63 (Uint63.of_Z (- z)))
  else PrimFloat.of_uint63 (Uint63.of_Z z).

(** [lastBreak > maxChars * 0.6] as the code computes it, in binary64. *)
Definition pastSixtyPercentFloat (lastBreak maxChars : Z) : bool :=
  PrimFloat.ltb (PrimFloat.mul (floatOfZ maxChars) 0.6%float)
                (floatOfZ lastBreak).

(** ** Sample inputs *)

Definition defaultOptions : Options :=
  {| kNearestNeighborsCount := 16; topPerVariant := 12;
     maxTotalAfterFusion := 6; maxPerParent := 4;
     minTopScore := Some 0.12%float; minScoreGap := Some 0.01%float;
     maxContextTokens := 1200 |}.

(** A hit of the parent document [parent] with score [s]. *)
Definition hit (parent : string) (s : float) : SearchResult :=
  {| document := {| chunk_id := None; parent_id := Some (lit parent);
                    title := None; chunk := None; text_vector := None |};
     score := Some s |}.

(** Collaborators that embed every text and find nothing. *)
Definition silentProviders : Providers :=
  {| embeddingsCreate := fun _ => Resolved [[1%float]];
     clientSearch := fun _ => Resolved (ResultsIterable []) |}.

Definition titled (t : string) (chunks : list jsstring) : Group :=
  {| g_title := Some (lit t); g_chunks := chunks |}.

(** A group whose fragments hold white space, zero-width units and line
    ends only. *)
Definition blankGroup : Group :=
  {| g_title := Some (lit "Handbook");
     g_chunks := [[SP; TAB; SP]; [8203; LF; 65279]; [CR; LF]] |}.

(** The block the formatter produces for the text [xyzw] of a document
    titled [a]: 36 code units, 9 estimated tokens. *)
Definition sampleBlock : jsstring := formatDocument (lit "xyzw") (lit "a").

Definition longBlock : jsstring :=
  formatDocument (lit "alpha beta gamma delta epsilon zeta eta theta") (lit "b").

Definition chatMessage (r c : string) : App.Message :=
  {| App.role := lit r; App.content := lit c |}.

(** A conversation of four messages that starts with its system
    message. *)
Definition sampleChat : list App.Message :=
  [chatMessage "system" "rules"; chatMessage "user" "q1";
   chatMessage "model" "a1"; chatMessage "user" "q2"].

(** ** Candidates under the per-parent cap *)

(** The candidates of [items] that have fewer than [maxPerParent] earlier
    candidates of their own parent, [earlier] being the candidates that
    stand before [items]. *)
Fixpoint underParentCap (maxPerParent : Z) (earlier items : list SearchResult)
    : list SearchResult :=
  match items with
  | [] => []
  | it :: rest =>
      (if countParent (parentKey (document it)) earlier <? maxPerParent
       then [it] else [])
      ++ underParentCap maxPerParent (earlier ++ [it]) rest
  end.

(** ** Groups read off the selection *)

(** The parent keys of [items] in the order of their first appearance,
    [seen] being the keys that appeared before. *)
Fixpoint firstParents (seen : list jsstring) (items : list SearchResult)
    : list jsstring :=
  match items with
  | [] => []
  | it :: rest =>
      let p := parentKey (document it) in
      if decide (p ∈ seen) then firstParents seen rest
      else p :: firstParents (seen ++ [p]) rest
  end.

(** The candidates of the parent [p]. *)
Definition ofParent (p : jsstring) (items : list SearchResult) : list SearchResult :=
  List.filter (fun it => bool_decide (parentKey (document it) = p)) items.

(** The non-empty chunk texts of [items], in order. *)
Definition chunksOf (items : list SearchResult) : list jsstring :=
  flat_map (fun it => if truthy (chunk (document it))
                      then [default [] (chunk (document it))] else [])
           items.

(** The first non-empty title among [items]; without one, whatever the
    first candidate has as its title. *)
Definition titleOf (items : list SearchResult) : option jsstring :=
  match List.find (fun it => truthy (title (document it))) items with
  | Some it => title (document it)
  | None =>
      match items with
      | it :: _ => title (document it)
      | [] => None
      end
  end.

Definition groupOf (p : jsstring) (items : list SearchResult) : Group :=
  {| g_title := titleOf (ofParent p items);
     g_chunks := chunksOf (ofParent p items) |}.

(** ** Text without white space *)

(** The units of [s] that are neither white space nor of the zero-width
    class, in their order. *)
Definition ink (s : jsstring) : jsstring :=
  List.filter (fun c => negb (isSpace c) && negb (isZeroWidth c)) s.

(** ** The 32-bit hash behind the fingerprint *)

(** The integer that [hashString] renders in base 16. *)
Definition hash32 (s : jsstring) : Z :=
  fold_left (fun h c => toInt32 (h * 31 + c)) s 0.

(** The same polynomial in 31 without any reduction to 32 bits. *)
Definition hashPoly (s : jsstring) : Z :=
  fold_left (fun h c => h * 31 + c) s 0.

(** ** Wrappers and lengths *)

(** The opening tag the formatter writes for a citation. *)
Definition openTag (citation : jsstring) : jsstring :=
  lit "<context source=" ++ [QUOTE] ++ escapeAttr citation ++ [QUOTE] ++ lit ">".

(** The units the stitcher keeps around the inner text of a block that
    it trims: head and tail when both delimiters occur, nothing
    otherwise. *)
Definition wrapperOf (p : jsstring) : Z :=
  let openIdx := indexOf p (lit ">") in
  let closeIdx := lastIndexOf p closeTag in
  if negb (openIdx =? -1) && negb (closeIdx =? -1)
  then len (slice p 0 (openIdx + 1)) + len (sliceFrom p closeIdx)
  else 0.

Definition maxWrapper (pieces : list jsstring) : Z :=
  foldr (fun p m => Z.max (wrapperOf p) m) 0 pieces.

(** Total number of units in a list of pieces. *)
Fixpoint sumLen (pieces : list jsstring) : Z :=
  match pieces with
  | [] => 0
  | p :: rest => len p + sumLen rest
  end.

(** ** Requests of the two pipelines *)

(** The search request of the hybrid pipeline for a query and its
    embedding. *)
Definition hybridRequest (o : Options) (query : jsstring) (v : list float)
    : SearchRequest :=
  {| searchText := query; searchVector := v; searchTop := topPerVariant o;
     searchKnn := Hybrid.kNearestNeighborsCount o |}.


(** ** What the language guarantees of the engine's sort *)

Definition scoreIsNaN (r : SearchResult) : bool :=
  match score r with
  | Some x => PrimFloat.is_nan x
  | None => false
  end.

(** [Array.prototype.sort] returns the elements it was given, and in the
    stable order of the comparator whenever the comparator is consistent
    on them, as it is when no score is NaN. *)
Definition SortsByScore (sort : list SearchResult -> list SearchResult) : Prop :=
  forall l,
    sort l ≡ₚ l
    /\ (Forall (fun r => scoreIsNaN r = false) l ->
        sort l = VectorOnly.sortByScore l).

(** ** Sentences *)

(** The units of [s] that are not white space, in their order. *)
Definition solid (s : jsstring) : jsstring :=
  List.filter (fun c => negb (isSpace c)) s.

(** The parts [firstNSentences] selects from: the pieces between
    separators that are not empty. *)
Definition sentences (text : jsstring) : list jsstring :=
  List.filter (fun p => 0 <? len p) (Hybrid.splitSentences text).

(** Is the last unit of [s] a sentence terminator? *)
Definition lastTerm (s : jsstring) : bool :=
  match last s with
  | Some c => Hybrid.isTerminator c
  | None => false
  end.

(** No unit of [s] is white space directly after a terminator, [prev]
    telling whether a terminator stands immediately before [s]. *)
Fixpoint noSplit (prev : bool) (s : jsstring) : Prop :=
  match s with
  | [] => True
  | c :: t => isSpace c && prev = false /\ noSplit (Hybrid.isTerminator c) t
  end.

(** The shape of a list of sentences: no part holds a separator, every
    part but the last ends with a terminator, and every part but
    possibly the first of the text starts with a unit that is not white
    space. *)
Fixpoint okParts (first : bool) (ps : list jsstring) : Prop :=
  match ps with
  | [] => True
  | p :: rest =>
      noSplit false p /\ (first = false -> headOk p)
      /\ (rest <> [] -> lastTerm p = true) /\ okParts false rest
  end.

(** ** Keys a purge visits *)

(** A key of the user other than the current one: the loop deletes it
    when it visits it. *)
Definition stale (userId current key : jsstring) : bool :=
  App.endsWith key (lit "/" ++ userId) && negb (bool_decide (key = current)).

(** The keys that are left of [l] when the loop walks it from its first
    key: a stale key is taken out, the key behind it moves into its
    place and is never visited. *)
Fixpoint survivors (userId current : jsstring) (l : list jsstring)
    : list jsstring :=
  match l with
  | [] => []
  | k :: rest =>
      if stale userId current k then
        match rest with
        | [] => []
        | k' :: rest' => k' :: survivors userId current rest'
        end
      else k :: survivors userId current rest
  end.

(** The keys the loop deletes on the same walk. *)
Fixpoint removed (userId current : jsstring) (l : list jsstring)
    : list jsstring :=
  match l with
  | [] => []
  | k :: rest =>
      if stale userId current k then
        k :: match rest with
             | [] => []
             | _ :: rest' => removed userId current rest'
             end
      else removed userId current rest
  end.

(** Three conversations of one user, stored in this order. *)
Definition sampleStorage : App.LocalStorage :=
  {| App.keys := [lit "c1/ann"; lit "c2/ann"; lit "c3/ann"];
     App.entries := {[ lit "c1/ann" := sampleChat; lit "c2/ann" := sampleChat;
                       lit "c3/ann" := sampleChat ]} |}.

(** ** Fragments of a group *)



(** * Properties *)

(** ** String primitives *)

Lemma len_nonneg (s : jsstring) : 0 <= len s.
Proof. unfold len. lia. Qed.

Lemma len_app (a b : jsstring) : len (a ++ b) = len a + len b.
Proof. unfold len. rewrite length_app. lia. Qed.

Lemma slice_0 (s : jsstring) (k : Z) :
  0 <= k -> slice s 0 k = take (Z.to_nat k) s.
Proof.
  intros Hk. unfold slice, clampIndex, len. cbn [Z.ltb Z.compare].
  destruct (Z.ltb_spec k 0); [lia |].
  rewrite (Z.min_l 0) by lia. change (Z.to_nat 0) with 0%nat.
  rewrite drop_0, Z.sub_0_r.
  destruct (Z.le_ge_cases k (Z.of_nat (length s))).
  - by rewrite Z.min_l by lia.
  - rewrite Z.min_r by lia. rewrite Nat2Z.id.
    rewrite take_ge by lia. by rewrite take_ge by lia.
Qed.

Lemma rstrip_prefix (f : Z -> bool) (s : jsstring) :
  exists t, s = rstrip f s ++ t /\ Forall (fun c => f c = true) t.
Proof.
  induction s as [|c s (t & Hs & Ht)]; cbn.
  - exists []. by split.
  - destruct (rstrip f s) as [|d r] eqn:E.
    + destruct (f c) eqn:Hc.
      * exists (c :: t). cbn in Hs. subst s. split; [done | by constructor].
      * exists t. cbn in Hs. subst s. by split.
    + exists t. split; [| done]. cbn. by rewrite Hs at 1.
Qed.

Lemma rstrip_len (f : Z -> bool) (s : jsstring) : len (rstrip f s) <= len s.
Proof.
  destruct (rstrip_prefix f s) as (t & Hs & _).
  rewrite Hs at 2. rewrite len_app. pose proof (len_nonneg t). lia.
Qed.

(** ** The confidence gate *)

(** C2.  The gate declines exactly when the candidate list is empty, or
    it has fewer than three candidates and both the top score is below
    [minTopScore] and the margin over the runner-up is below [minScoreGap];
    with three or more candidates it always proceeds. *)
Theorem shouldClarify_policy (o : Options) (items : list SearchResult) :
  (shouldClarify o items = true <->
     items = [] \/
     ((length items < 3)%nat /\
      PrimFloat.ltb (topScore items) (effectiveMinTopScore o) = true /\
      PrimFloat.ltb (PrimFloat.sub (topScore items) (secondScore items))
                    (effectiveMinScoreGap o) = true))
  /\ ((3 <= length items)%nat -> shouldClarify o items = false).
Proof.
  unfold shouldClarify, effectiveMinTopScore, effectiveMinScoreGap.
  destruct items as [|a [|b [|c rest]]]; cbn.
  - split; [tauto | lia].
  - split; [| lia]. rewrite andb_true_iff. split.
    + intros [H1 H2]. right. repeat split; auto.
    + intros [H | (_ & H1 & H2)]; [discriminate | auto].
  - split; [| lia]. rewrite andb_true_iff. split.
    + intros [H1 H2]. right. repeat split; auto.
    + intros [H | (_ & H1 & H2)]; [discriminate | auto].
  - split; [| reflexivity]. split; [discriminate |].
    intros [H | (H & _)]; [discriminate | lia].
Qed.

(** Scenarios B and C of the specification. *)
Example gate_scenario_B :
  shouldClarify defaultOptions [hit "p" 0.08; hit "q" 0.075] = true.
Proof. vm_compute. reflexivity. Qed.

Example gate_scenario_C :
  shouldClarify defaultOptions [hit "p" 0.5; hit "q" 0.1] = false.
Proof. vm_compute. reflexivity. Qed.

Lemma shouldClarify_policy_witness :
  shouldClarify defaultOptions [hit "p" 0.01; hit "p" 0.01; hit "q" 0.01] = false.
Proof.
  apply (proj2 (shouldClarify_policy defaultOptions
                  [hit "p" 0.01; hit "p" 0.01; hit "q" 0.01])).
  simpl. lia.
Defined.

(** ** Early exits of renderContext *)

(** C10.  For the empty query both variants return the empty string
    without a single provider call; the vector-only variant does so for
    every query that is empty after trimming. *)
Theorem renderContext_blank_query_calls_nothing :
  (forall (o : Options) (P : Providers),
      run P (renderContext o []) = (Resolved [], []))
  /\ (forall clean sort (o : VectorOnly.Options) (P : Providers),
      run P (VectorOnly.renderContext clean sort o []) = (Resolved [], []))
  /\ (forall clean sort (o : VectorOnly.Options) (P : Providers) (query : jsstring),
      trim query = [] ->
      run P (VectorOnly.renderContext clean sort o query) = (Resolved [], [])).
Proof.
  repeat split; try reflexivity.
  intros clean sort o P query Hq. unfold VectorOnly.renderContext.
  destruct query; [reflexivity |]. rewrite Hq. reflexivity.
Qed.

Lemma renderContext_blank_query_calls_nothing_witness :
  run silentProviders
      (VectorOnly.renderContext (fun s => s) VectorOnly.sortByScore
         {| VectorOnly.kNearestNeighborsCount := 20; VectorOnly.top := 20;
            VectorOnly.maxReturn := 5 |}
         [SP; TAB; LF; SP])
  = (Resolved [], []).
Proof.
  apply (proj2 (proj2 renderContext_blank_query_calls_nothing)).
  reflexivity.
Defined.

Lemma buildContext_declined (o : Options) (ranked : list SearchResult) :
  shouldClarify o ranked = true -> buildContext o ranked = [].
Proof. intros H. unfold buildContext. rewrite H. reflexivity. Qed.

(** C8.  When retrieval succeeds with an empty candidate list, or with
    any list on which the gate declines, [renderContext] resolves to the
    empty string: the decline is a normal result, not a rejection. *)
Theorem renderContext_decline_resolves_empty
    (o : Options) (P : Providers) (query : jsstring)
    (v : list float) (more : list (list float))
    (res : SearchResponse) (ranked : list SearchResult) :
  query <> [] ->
  embeddingsCreate P query = Resolved (v :: more) ->
  clientSearch P {| searchText := query; searchVector := v;
                    searchTop := topPerVariant o;
                    searchKnn := kNearestNeighborsCount o |} = Resolved res ->
  res = ResultsIterable ranked \/ res = TopLevelIterable ranked ->
  ranked = [] \/ shouldClarify o ranked = true ->
  run P (renderContext o query)
  = (Resolved [],
     [EmbedCall query;
      SearchCall {| searchText := query; searchVector := v;
                    searchTop := topPerVariant o;
                    searchKnn := kNearestNeighborsCount o |}]).
Proof.
  intros Hq He Hs Hres Hgate.
  assert (Hdecl : buildContext o ranked = []).
  { apply buildContext_declined. destruct Hgate as [-> | H]; [reflexivity | exact H]. }
  destruct query as [|c q]; [congruence |].
  unfold renderContext, mbind, Prog_bind.
  cbn [getEmbeddingVector bind run]. rewrite He.
  cbn [searchCollect bind run]. rewrite Hs.
  destruct Hres as [-> | ->]; cbn [bind run]; rewrite Hdecl; reflexivity.
Qed.

Lemma renderContext_decline_resolves_empty_witness :
  run silentProviders (renderContext defaultOptions (lit "policy"))
  = (Resolved [],
     [EmbedCall (lit "policy");
      SearchCall {| searchText := lit "policy"; searchVector := [1%float];
                    searchTop := 12; searchKnn := 16 |}]).
Proof.
  apply (renderContext_decline_resolves_empty defaultOptions silentProviders
           (lit "policy") [1%float] [] (ResultsIterable []) []).
  - discriminate.
  - reflexivity.
  - reflexivity.
  - left. reflexivity.
  - left. reflexivity.
Defined.

(** ** The diversity selector *)

Lemma countParent_app (p : jsstring) (l1 l2 : list SearchResult) :
  countParent p (l1 ++ l2) = countParent p l1 + countParent p l2.
Proof. induction l1 as [|it l1 IH]; cbn; [lia |]. rewrite IH. lia. Qed.

Lemma limitLoop_spec (items : list SearchResult) (maxPerParent maxTotal : Z)
    (perParent : gmap (list Z) Z) (out : list SearchResult) :
  limitInv maxPerParent perParent out ->
  Z.of_nat (length out) < Z.max 1 maxTotal ->
  exists added,
    limitLoop items maxPerParent maxTotal perParent out = out ++ added
    /\ sublist added items
    /\ Z.of_nat (length (out ++ added)) <= Z.max 1 maxTotal
    /\ forall p, countParent p (out ++ added) <= Z.max 0 maxPerParent.
Proof.
  revert perParent out.
  induction items as [|it rest IH]; intros perParent out Hinv Hlen; cbn [limitLoop].
  - exists []. rewrite app_nil_r. split; [done |]. split; [constructor |].
    split; [lia |]. intros p. apply Hinv.
  - set (parent := parentKey (document it)).
    destruct (Z.ltb_spec (default 0 (perParent !! parent)) maxPerParent) as [Hlt | Hge].
    + assert (Hinv' : limitInv maxPerParent
                        (<[parent := default 0 (perParent !! parent) + 1]> perParent)
                        (out ++ [it])).
      { intros p. rewrite countParent_app. cbn [countParent]. fold parent.
        destruct (Hinv p) as [H1 H2].
        destruct (decide (parent = p)) as [<- | Hne].
        - rewrite lookup_insert_eq. cbn. lia.
        - rewrite lookup_insert_ne by done. lia. }
      assert (Hlen' : Z.of_nat (length (out ++ [it])) = Z.of_nat (length out) + 1).
      { rewrite length_app. cbn. lia. }
      rewrite Z.geb_leb.
      destruct (Z.leb_spec maxTotal (Z.of_nat (length (out ++ [it])))) as [Hfull | Hroom].
      * exists [it]. split; [done |]. split.
        { constructor. apply sublist_nil_l. }
        split; [lia |]. intros p. apply Hinv'.
      * destruct (IH _ _ Hinv' ltac:(lia)) as (added & -> & Hsub & Hsize & Hcount).
        exists (it :: added). rewrite <- !app_assoc in *. cbn [app] in *.
        split; [done |]. split; [by constructor | done].
    + destruct (IH _ _ Hinv Hlen) as (added & -> & Hsub & Hsize & Hcount).
      exists added. split; [done |]. split; [by constructor | done].
Qed.

Lemma limitLoop_stops (a : list SearchResult) (maxPerParent maxTotal : Z)
    (perParent : gmap (list Z) Z) (out : list SearchResult) :
  Z.of_nat (length out) < Z.max 1 maxTotal ->
  (forall b, limitLoop (a ++ b) maxPerParent maxTotal perParent out
             = limitLoop a maxPerParent maxTotal perParent out)
  \/ Z.of_nat (length (limitLoop a maxPerParent maxTotal perParent out))
     < Z.max 1 maxTotal.
Proof.
  revert perParent out.
  induction a as [|it rest IH]; intros perParent out Hlen; cbn [limitLoop app].
  - by right.
  - destruct (_ <? maxPerParent); [| by apply IH].
    rewrite Z.geb_leb.
    destruct (Z.leb_spec maxTotal (Z.of_nat (length (out ++ [it])))); [by left |].
    apply IH. lia.
Qed.

(** X1.  What the selector guarantees for every input: the result is a
    subsequence of the candidates, no parent has more entries than
    [maxPerParent] allows, the size is at most [maxTotal] as soon as
    [maxTotal] is at least 1, and candidates behind the one that filled
    the total are never looked at. *)
Theorem limitByParentAndTotal_guarantees (items : list SearchResult)
    (maxPerParent maxTotal : Z) :
  sublist (limitByParentAndTotal items maxPerParent maxTotal) items
  /\ Z.of_nat (length (limitByParentAndTotal items maxPerParent maxTotal))
     <= Z.max 1 maxTotal
  /\ (forall p, countParent p (limitByParentAndTotal items maxPerParent maxTotal)
                <= Z.max 0 maxPerParent)
  /\ (forall later,
        Z.max 1 maxTotal
        <= Z.of_nat (length (limitByParentAndTotal items maxPerParent maxTotal)) ->
        limitByParentAndTotal (items ++ later) maxPerParent maxTotal
        = limitByParentAndTotal items maxPerParent maxTotal).
Proof.
  unfold limitByParentAndTotal.
  destruct (limitLoop_spec items maxPerParent maxTotal ∅ [])
    as (added & E & Hsub & Hsize & Hcount).
  { intros p. rewrite lookup_empty. cbn. lia. }
  { cbn. lia. }
  rewrite E. cbn [app] in *. repeat split; try done.
  intros later Hfull.
  destruct (limitLoop_stops items maxPerParent maxTotal ∅ []) as [H | H].
  { cbn. lia. }
  - rewrite H. exact E.
  - rewrite E in H. cbn [app] in H. lia.
Qed.

(** C3.  With [maxTotal = 0] the first admissible candidate is pushed
    before the total is compared with the cap, so the result has one
    element. *)
Theorem limitByParentAndTotal_ignores_zero_total :
  limitByParentAndTotal [hit "p" 0.5; hit "q" 0.4] 1 0 = [hit "p" 0.5]
  /\ (length (limitByParentAndTotal [hit "p" 0.5; hit "q" 0.4] 1 0) = 1)%nat.
Proof. vm_compute. split; reflexivity. Qed.

(** Scenario D of the specification: five candidates of two parents,
    one per parent, at most three in total. *)
Example selector_scenario_D :
  limitByParentAndTotal
    [hit "p" 0.9; hit "p" 0.8; hit "q" 0.7; hit "q" 0.6; hit "p" 0.5] 1 3
  = [hit "p" 0.9; hit "q" 0.7].
Proof. vm_compute. reflexivity. Qed.

(** ** The normalizer *)

(** *** Chains and runs *)

Lemma chain_pairwise (R : Z -> Z -> Prop) (p : Z) (s : jsstring) :
  chain R p s -> pairwise R s.
Proof. destruct s; cbn; tauto. Qed.

Lemma chain_app (R : Z -> Z -> Prop) (p : Z) (a b : jsstring) :
  chain R p (a ++ b) <-> chain R p a /\ chain R (default p (last a)) b.
Proof.
  revert p. induction a as [|c a IH]; intros p; cbn [app chain].
  - cbn. tauto.
  - rewrite IH. rewrite last_cons. destruct (last a); cbn; tauto.
Qed.

Lemma chain_suffix (R : Z -> Z -> Prop) (p : Z) (a b : jsstring) :
  chain R p (a ++ b) -> pairwise R b.
Proof. rewrite chain_app. intros [_ H]. by apply chain_pairwise in H. Qed.

Lemma pairwise_suffix (R : Z -> Z -> Prop) (a b : jsstring) :
  pairwise R (a ++ b) -> pairwise R b.
Proof.
  destruct a as [|c a]; [done |]. cbn [app pairwise]. apply chain_suffix.
Qed.

Lemma pairwise_prefix (R : Z -> Z -> Prop) (a b : jsstring) :
  pairwise R (a ++ b) -> pairwise R a.
Proof.
  destruct a as [|c a]; [done |]. cbn [app pairwise]. rewrite chain_app. tauto.
Qed.

Lemma chain_impl (R R' : Z -> Z -> Prop) (P : Z -> Prop) (p : Z) (s : jsstring) :
  (forall a b, P a -> P b -> R a b -> R' a b) ->
  P p -> Forall P s -> chain R p s -> chain R' p s.
Proof.
  intros HR. revert p. induction s as [|c s IH]; intros p Hp Hs; cbn; [done |].
  apply Forall_cons in Hs as [Hc Hs]. intros [H1 H2]. split; auto.
Qed.

Lemma lfRuns_mono (k k' : nat) (s : jsstring) :
  (k' <= k)%nat -> lfRuns k s -> lfRuns k' s.
Proof.
  revert k k'. induction s as [|c s IH]; intros k k' Hk; cbn; [done |].
  destruct (c =? LF); [| done].
  intros [H1 H2]. split; [lia |]. apply (IH (S k)); [lia | done].
Qed.

Lemma lfRuns_prefix (k : nat) (a b : jsstring) :
  lfRuns k (a ++ b) -> lfRuns k a.
Proof.
  revert k. induction a as [|c a IH]; intros k; cbn; [done |].
  destruct (c =? LF); [| apply IH]. intros [H1 H2]. split; [done |]. by apply IH.
Qed.

Lemma lfRuns_suffix (k : nat) (a b : jsstring) :
  lfRuns k (a ++ b) -> lfRuns 0 b.
Proof.
  revert k. induction a as [|c a IH]; intros k; cbn [app].
  - apply lfRuns_mono. lia.
  - cbn. destruct (c =? LF); [| apply IH]. intros [_ H]. by apply IH in H.
Qed.

(** *** Stripping *)

Lemma lstrip_suffix (f : Z -> bool) (s : jsstring) :
  exists a, s = a ++ lstrip f s.
Proof.
  induction s as [|c s [a Ha]]; cbn.
  - by exists [].
  - destruct (f c); [| by exists []]. exists (c :: a). cbn. by rewrite <- Ha.
Qed.

Lemma lstrip_headOk (s : jsstring) : headOk (lstrip isSpace s).
Proof.
  induction s as [|c s IH]; cbn; [done |].
  destruct (isSpace c) eqn:E; [done |]. cbn. done.
Qed.

Lemma lstrip_fixed (s : jsstring) : headOk s -> lstrip isSpace s = s.
Proof. destruct s as [|c s]; cbn; [done |]. by intros ->. Qed.

Lemma rstrip_lastOk (s : jsstring) : lastOk (rstrip isSpace s).
Proof.
  unfold lastOk. induction s as [|c s IH]; cbn; [done |].
  destruct (rstrip isSpace s) as [|d r] eqn:E.
  - destruct (isSpace c) eqn:Ec; cbn; done.
  - by rewrite last_cons_cons.
Qed.

Lemma rstrip_fixed (s : jsstring) : lastOk s -> rstrip isSpace s = s.
Proof.
  unfold lastOk. induction s as [|c s IH]; cbn [rstrip]; [done |].
  destruct s as [|d s].
  - cbn. by intros ->.
  - rewrite last_cons_cons. intros H. by rewrite (IH H).
Qed.

Lemma rstrip_headOk (s : jsstring) : headOk s -> headOk (rstrip isSpace s).
Proof.
  destruct s as [|c s]; cbn; [done |]. intros H.
  destruct (rstrip isSpace s); [by rewrite H |]; done.
Qed.

Lemma trim_headOk (s : jsstring) : headOk (trim s).
Proof. apply rstrip_headOk, lstrip_headOk. Qed.

Lemma trim_lastOk (s : jsstring) : lastOk (trim s).
Proof. apply rstrip_lastOk. Qed.

Lemma trim_fixed (s : jsstring) : headOk s -> lastOk s -> trim s = s.
Proof. intros H1 H2. unfold trim. by rewrite lstrip_fixed, rstrip_fixed. Qed.

(** A trimmed text is a segment of the text. *)
Lemma trim_segment (s : jsstring) : exists a b, s = a ++ trim s ++ b.
Proof.
  destruct (lstrip_suffix isSpace s) as [a Ha].
  destruct (rstrip_prefix isSpace (lstrip isSpace s)) as (b & Hb & _).
  exists a, b. unfold trim. by rewrite <- Hb.
Qed.

Lemma trim_Forall (P : Z -> Prop) (s : jsstring) :
  Forall P s -> Forall P (trim s).
Proof.
  destruct (trim_segment s) as (a & b & E). rewrite E at 1.
  rewrite !Forall_app. tauto.
Qed.

Lemma trim_pairwise (R : Z -> Z -> Prop) (s : jsstring) :
  pairwise R s -> pairwise R (trim s).
Proof.
  destruct (trim_segment s) as (a & b & E). rewrite E at 1.
  intros H. by apply pairwise_suffix, pairwise_prefix in H.
Qed.

Lemma trim_lfRuns (k : nat) (s : jsstring) :
  lfRuns k s -> lfRuns 0 (trim s).
Proof.
  destruct (trim_segment s) as (a & b & E). rewrite E at 1.
  intros H. by apply lfRuns_suffix, lfRuns_prefix in H.
Qed.

(** *** The stages of the normalizer *)

Lemma removeZeroWidth_clean (s : jsstring) :
  Forall (fun c => isZeroWidth c = false) (removeZeroWidth s).
Proof.
  induction s as [|c s IH]; cbn; [constructor |].
  destruct (isZeroWidth c) eqn:E; cbn; [done |]. by constructor.
Qed.

Lemma removeZeroWidth_fixed (s : jsstring) :
  Forall (fun c => isZeroWidth c = false) s -> removeZeroWidth s = s.
Proof.
  induction 1 as [|c s Hc _ IH]; cbn; [done |].
  unfold removeZeroWidth in IH. by rewrite Hc, IH.
Qed.

(** Induction along the cases of [normalizeLineEndings]. *)
Lemma normalizeLineEndings_cases (Q : jsstring -> jsstring -> Prop) :
  Q [] [] ->
  (forall t r, Q t r -> Q (CR :: LF :: t) (LF :: r)) ->
  (forall t r, Q t r -> Q (CR :: t) (LF :: r)) ->
  (forall c t r, c <> CR -> Q t r -> Q (c :: t) (c :: r)) ->
  forall s, Q s (normalizeLineEndings s).
Proof.
  intros Hnil Hcrlf Hcr Hother s.
  assert (H : Q s (normalizeLineEndings s)
              /\ forall c, Q (c :: s) (normalizeLineEndings (c :: s))); [| tauto].
  induction s as [|d s [IH1 IH2]].
  - split; [exact Hnil |]. intros c. cbn.
    destruct (Z.eqb_spec c CR) as [-> | Hc]; [by apply Hcr | by apply Hother].
  - split; [apply IH2 |]. intros c. cbn [normalizeLineEndings].
    destruct (Z.eqb_spec c CR) as [-> | Hc].
    + destruct (Z.eqb_spec d LF) as [-> | Hd]; [by apply Hcrlf |].
      apply Hcr. apply IH2.
    + apply Hother; [done |]. apply IH2.
Qed.

Lemma normalizeLineEndings_Forall (P : Z -> Prop) (s : jsstring) :
  P LF -> Forall P s -> Forall P (normalizeLineEndings s).
Proof.
  intros HLF. pattern s, (normalizeLineEndings s).
  apply normalizeLineEndings_cases.
  - done.
  - intros t r IH H. apply Forall_cons in H as [_ H].
    apply Forall_cons in H as [_ H]. constructor; auto.
  - intros t r IH H. apply Forall_cons in H as [_ H]. constructor; auto.
  - intros c t r _ IH H. apply Forall_cons in H as [Hc H]. constructor; auto.
Qed.

Lemma normalizeLineEndings_noCR (s : jsstring) :
  Forall (fun c => c <> CR) (normalizeLineEndings s).
Proof.
  pattern s, (normalizeLineEndings s). apply normalizeLineEndings_cases.
  - constructor.
  - intros t r IH. by constructor.
  - intros t r IH. by constructor.
  - intros c t r Hc IH. by constructor.
Qed.

Lemma normalizeLineEndings_fixed (s : jsstring) :
  Forall (fun c => c <> CR) s -> normalizeLineEndings s = s.
Proof.
  induction 1 as [|c s Hc _ IH]; cbn; [done |].
  destruct (Z.eqb_spec c CR); [done |]. by rewrite IH.
Qed.

(** Lines. *)

Lemma split_first (sep : Z) (s : jsstring) :
  match split sep s with
  | [] => False
  | [] :: _ => s = [] \/ exists t, s = sep :: t
  | (d :: _) :: _ => d <> sep /\ exists t, s = d :: t
  end.
Proof.
  destruct s as [|c t]; cbn; [by left |].
  destruct (Z.eqb_spec c sep) as [-> | Hc]; [right; by eexists |].
  destruct (split sep t); (split; [done | by eexists]).
Qed.

Lemma split_Forall (P : Z -> Prop) (sep : Z) (s : jsstring) :
  Forall P s -> Forall (Forall P) (split sep s).
Proof.
  induction 1 as [|c s Hc _ IH]; cbn; [by repeat constructor |].
  destruct (c =? sep); [by constructor |].
  destruct (split sep s) as [|l ls]; [by repeat constructor |].
  apply Forall_cons in IH as [Hl Hls]. constructor; [by constructor | done].
Qed.

Lemma split_noSep (sep : Z) (s : jsstring) :
  Forall (Forall (fun c => c <> sep)) (split sep s).
Proof.
  induction s as [|c s IH]; cbn; [by repeat constructor |].
  destruct (Z.eqb_spec c sep); [by constructor |].
  destruct (split sep s) as [|l ls]; [by repeat constructor |].
  apply Forall_cons in IH as [Hl Hls]. constructor; [by constructor | done].
Qed.

Lemma join_cons (sep p : jsstring) (parts : list jsstring) :
  parts <> [] -> join sep (p :: parts) = p ++ sep ++ join sep parts.
Proof. by destruct parts. Qed.

Lemma join_cons_head (sep : jsstring) (c : Z) (l : jsstring)
    (ls : list jsstring) :
  join sep ((c :: l) :: ls) = c :: join sep (l :: ls).
Proof. by destruct ls. Qed.

Lemma split_nonempty (sep : Z) (s : jsstring) : split sep s <> [].
Proof. pose proof (split_first sep s). by destruct (split sep s). Qed.

Lemma join_split (sep : Z) (s : jsstring) : join [sep] (split sep s) = s.
Proof.
  induction s as [|c s IH]; cbn [split]; [done |].
  destruct (Z.eqb_spec c sep) as [-> | Hc].
  - rewrite join_cons by apply split_nonempty. by rewrite IH.
  - pose proof (split_nonempty sep s).
    destruct (split sep s) as [|l ls]; [done |].
    by rewrite join_cons_head, IH.
Qed.

(** Runs of blanks. *)

Lemma collapseRuns_Forall (P : Z -> Prop) (f : Z -> bool) (s : jsstring) :
  P SP -> Forall P s -> Forall P (collapseRuns f s).
Proof.
  intros HP. induction 1 as [|c s Hc Hs IH]; cbn; [done |].
  destruct (f c).
  - destruct s as [|d s]; [by repeat constructor |].
    destruct (f d); [done | by constructor].
  - by constructor.
Qed.

Lemma collapseRuns_noTab (s : jsstring) :
  Forall (fun c => c <> TAB) (collapseRuns isBlank s).
Proof.
  induction s as [|c s IH]; cbn [collapseRuns]; [constructor |].
  destruct (isBlank c) eqn:E.
  - destruct s as [|d s]; [by repeat constructor |].
    destruct (isBlank d); [done | by constructor].
  - constructor; [| done]. intros ->. discriminate.
Qed.

Lemma isBlank_SP : isBlank SP = true.
Proof. reflexivity. Qed.

Lemma collapseRuns_chain (p : Z) (s : jsstring) :
  p <> SP \/ match s with c :: _ => isBlank c = false | [] => True end ->
  chain noDoubleSpace p (collapseRuns isBlank s).
Proof.
  revert p. induction s as [|c t IH]; intros p Hp; cbn [collapseRuns]; [done |].
  destruct (isBlank c) eqn:Ec.
  - destruct Hp as [Hp | Hp]; [| congruence].
    destruct t as [|d t'].
    + cbn. split; [| done]. intros [? _]. done.
    + destruct (isBlank d) eqn:Ed.
      * apply IH. by left.
      * cbn [chain]. split; [intros [? _]; done |]. apply IH. by right.
  - cbn [chain]. split.
    + intros [_ ->]. by rewrite isBlank_SP in Ec.
    + apply IH. left. intros ->. by rewrite isBlank_SP in Ec.
Qed.

Lemma collapseRuns_noDoubleSpace (s : jsstring) :
  pairwise noDoubleSpace (collapseRuns isBlank s).
Proof. apply (chain_pairwise _ 0), collapseRuns_chain. by left. Qed.

Lemma collapseRuns_fixed (s : jsstring) :
  Forall (fun c => c <> TAB) s -> pairwise noDoubleSpace s ->
  collapseRuns isBlank s = s.
Proof.
  assert (Hblank : forall c, c <> TAB -> isBlank c = true -> c = SP).
  { intros c Hc. unfold isBlank. rewrite orb_true_iff, !Z.eqb_eq. tauto. }
  induction 1 as [|c t Hc Ht IH]; intros Hp; cbn [collapseRuns]; [done |].
  assert (IH' : collapseRuns isBlank t = t).
  { apply IH. by apply chain_pairwise in Hp. }
  destruct (isBlank c) eqn:Ec; [| by rewrite IH'].
  apply Hblank in Ec as ->; [| done].
  destruct t as [|d t']; [done |].
  destruct (isBlank d) eqn:Ed; [| by rewrite IH'].
  apply Forall_cons in Ht as [Hd _]. apply Hblank in Ed as ->; [| done].
  cbn in Hp. destruct Hp as [Hp _]. by destruct Hp.
Qed.

Lemma compactLine_tidy (l : jsstring) :
  Forall (fun c => isZeroWidth c = false /\ c <> CR) l ->
  Forall (fun c => c <> LF) l ->
  LineTidy (compactLine l).
Proof.
  intros Hu Hlf. unfold compactLine. repeat split.
  - apply trim_Forall.
    assert (H1 : Forall (fun c => isZeroWidth c = false /\ c <> CR)
                   (collapseRuns isBlank l)).
    { apply collapseRuns_Forall; [| done]. by split. }
    assert (H2 := collapseRuns_noTab l).
    revert H1 H2. rewrite !Forall_forall. unfold okUnit. intros H1 H2 x Hx.
    specialize (H1 x Hx). specialize (H2 x Hx). tauto.
  - apply trim_Forall. by apply collapseRuns_Forall.
  - apply trim_pairwise, collapseRuns_noDoubleSpace.
  - apply trim_headOk.
  - apply trim_lastOk.
Qed.

Lemma compactLine_fixed (l : jsstring) :
  Forall (fun c => c <> TAB) l -> pairwise noDoubleSpace l ->
  headOk l -> lastOk l -> compactLine l = l.
Proof.
  intros H1 H2 H3 H4. unfold compactLine.
  rewrite collapseRuns_fixed by done. by apply trim_fixed.
Qed.

(** Joined lines. *)

Lemma okPair_inside (a b : Z) :
  a <> LF -> b <> LF -> noDoubleSpace a b -> okPair a b.
Proof. unfold okPair. tauto. Qed.

Lemma okPair_after_LF (c : Z) : isSpace c = false -> okPair LF c.
Proof.
  intros H. unfold okPair, noDoubleSpace. split; [| split].
  - intros [? _]. done.
  - by right.
  - intros ->. done.
Qed.

Lemma okPair_before_LF (c : Z) : isSpace c = false -> okPair c LF.
Proof.
  intros H. unfold okPair, noDoubleSpace. split; [| split].
  - intros [_ ?]. done.
  - intros ->. done.
  - by right.
Qed.

Lemma okPair_LF_LF : okPair LF LF.
Proof.
  unfold okPair, noDoubleSpace. split; [| split].
  - intros [? _]. done.
  - by left.
  - by left.
Qed.

Lemma line_chain (l : jsstring) : LineTidy l -> chain okPair LF l.
Proof.
  intros (_ & Hlf & Hp & Hh & _). destruct l as [|c l]; [done |].
  cbn [chain]. split; [by apply okPair_after_LF |].
  cbn in Hp. apply Forall_cons in Hlf as [Hc Hlf].
  apply (chain_impl noDoubleSpace okPair (fun c => c <> LF));
    [intros a b; apply okPair_inside | assumption ..].
Qed.

Lemma line_then_LF (l : jsstring) :
  LineTidy l -> okPair (default LF (last l)) LF.
Proof.
  intros (_ & _ & _ & _ & Hl). unfold lastOk in Hl.
  destruct (last l); cbn; [by apply okPair_before_LF | apply okPair_LF_LF].
Qed.

Lemma join_chain (ls : list jsstring) :
  Forall LineTidy ls -> chain okPair LF (join [LF] ls).
Proof.
  induction 1 as [|l ls Hl Hls IH]; [done |].
  destruct ls as [|l' ls]; [by apply line_chain |].
  rewrite join_cons by done. rewrite chain_app. split; [by apply line_chain |].
  cbn [app chain]. split; [by apply line_then_LF | exact IH].
Qed.

Lemma join_Forall (P : Z -> Prop) (ls : list jsstring) :
  P LF -> Forall (Forall P) ls -> Forall P (join [LF] ls).
Proof.
  intros HP. induction 1 as [|l ls Hl Hls IH]; [done |].
  destruct ls as [|l' ls]; [done |].
  rewrite join_cons by done. rewrite !Forall_app. repeat split; try done.
  by repeat constructor.
Qed.

(** Runs of line feeds. *)

Lemma collapseNewlinesFrom_Forall (P : Z -> Prop) (k : nat) (s : jsstring) :
  Forall P s -> Forall P (collapseNewlinesFrom k s).
Proof.
  intros H. revert k. induction H as [|c s Hc Hs IH]; intros k; cbn; [done |].
  destruct (Z.eqb_spec c LF) as [-> | Hne]; [| by constructor].
  destruct k as [|[|k]]; [by constructor | by constructor | apply IH].
Qed.

Lemma collapseNewlinesFrom_chain (R : Z -> Z -> Prop) (k : nat) (p : Z)
    (s : jsstring) :
  ((0 < k)%nat -> p = LF) -> chain R p s ->
  chain R p (collapseNewlinesFrom k s).
Proof.
  revert k p. induction s as [|c s IH]; intros k p Hk; cbn [chain collapseNewlinesFrom];
    [done |].
  intros [H1 H2]. destruct (Z.eqb_spec c LF) as [-> | Hc].
  - destruct k as [|[|k]].
    + cbn [chain]. split; [done |]. by apply IH.
    + cbn [chain]. split; [done |]. by apply IH.
    + rewrite Hk by lia. by apply IH.
  - cbn [chain]. split; [done |]. apply IH; [lia | done].
Qed.

Lemma collapseNewlinesFrom_lfRuns (k : nat) (s : jsstring) :
  lfRuns (min k 2) (collapseNewlinesFrom k s).
Proof.
  revert k. induction s as [|c s IH]; intros k; cbn [collapseNewlinesFrom]; [done |].
  destruct (Z.eqb_spec c LF) as [-> | Hc].
  - destruct k as [|[|k]].
    + cbn. split; [lia |]. apply (IH 1%nat).
    + cbn. split; [lia |]. apply (IH 2%nat).
    + apply (IH (S (S k))).
  - cbn. destruct (Z.eqb_spec c LF); [done |]. apply (IH 0%nat).
Qed.

Lemma collapseNewlinesFrom_fixed (k : nat) (s : jsstring) :
  lfRuns k s -> collapseNewlinesFrom k s = s.
Proof.
  revert k. induction s as [|c s IH]; intros k; cbn; [done |].
  destruct (Z.eqb_spec c LF) as [-> | Hne].
  - intros [Hk H]. destruct k as [|[|k]]; [| | lia]; by rewrite IH.
  - intros H. by rewrite IH.
Qed.

(** *** Normalized text is what the normalizer returns *)

Lemma Compact_nil : Compact [].
Proof. by repeat split. Qed.

Lemma compactWhitespace_Compact (s : jsstring) : Compact (compactWhitespace s).
Proof.
  destruct s as [|c0 s0]; [apply Compact_nil |].
  unfold compactWhitespace. set (s := c0 :: s0). clearbody s.
  set (e := normalizeLineEndings (removeZeroWidth s)).
  assert (He : Forall (fun c => isZeroWidth c = false /\ c <> CR) e).
  { apply Forall_and. split.
    - apply normalizeLineEndings_Forall; [done | apply removeZeroWidth_clean].
    - apply normalizeLineEndings_noCR. }
  assert (Hlines : Forall LineTidy (List.map compactLine (split LF e))).
  { apply List.Forall_map.
    pose proof (split_Forall _ LF e He) as H1.
    pose proof (split_noSep LF e) as H2.
    revert H1 H2. rewrite !Forall_forall. intros H1 H2 l Hl.
    apply compactLine_tidy; auto. }
  set (j := join [LF] (List.map compactLine (split LF e))).
  assert (Hj1 : Forall okUnit j).
  { apply join_Forall; [by repeat split |].
    eapply Forall_impl; [exact Hlines |]. by intros l (H & _). }
  assert (Hj2 : chain okPair LF j) by by apply join_chain.
  unfold collapseNewlines.
  repeat split.
  - by apply trim_Forall, collapseNewlinesFrom_Forall.
  - apply trim_pairwise, (chain_pairwise _ LF).
    apply collapseNewlinesFrom_chain; [lia | done].
  - apply (trim_lfRuns 0), (collapseNewlinesFrom_lfRuns 0).
  - apply trim_headOk.
  - apply trim_lastOk.
Qed.

Lemma lastOk_tail (c : Z) (t : jsstring) : lastOk (c :: t) -> lastOk t.
Proof. destruct t; [done |]. unfold lastOk. by rewrite last_cons_cons. Qed.

Lemma lines_fixed_from (s : jsstring) :
  Forall okUnit s -> pairwise okPair s -> lastOk s ->
  match split LF s with
  | l :: ls => RightTidy l /\ Forall (fun l => compactLine l = l) ls
  | [] => False
  end.
Proof.
  induction s as [|c t IH]; intros Hu Hp Hl; cbn [split].
  - by repeat split.
  - apply Forall_cons in Hu as [Hc Hu].
    specialize (IH Hu (chain_pairwise _ _ _ Hp) (lastOk_tail _ _ Hl)).
    pose proof (split_first LF t) as Hfirst.
    destruct (split LF t) as [|l ls]; [done |].
    destruct IH as ((Htab & Hnd & Hlast) & Hls).
    destruct (Z.eqb_spec c LF) as [-> | Hne].
    + split; [by repeat split |]. constructor; [| done].
      apply compactLine_fixed; try done.
      destruct l as [|d l']; [done |]. destruct Hfirst as (Hd & t' & ->).
      cbn in Hp. destruct Hp as [(_ & H & _) _].
      destruct (H eq_refl); done.
    + split; [| done]. split; [| split].
      * constructor; [| done]. by destruct Hc as (_ & _ & ?).
      * destruct l as [|d l']; [done |]. destruct Hfirst as (Hd & t' & ->).
        cbn in Hp. destruct Hp as [(H & _) _]. by split.
      * destruct l as [|d l'].
        -- destruct Hfirst as [-> | (t' & ->)]; [done |].
           cbn in Hp. destruct Hp as [(_ & _ & H) _].
           unfold lastOk. cbn. destruct (H eq_refl); done.
        -- unfold lastOk in *. by rewrite last_cons_cons.
Qed.

Lemma lines_fixed (s : jsstring) :
  Compact s -> List.map compactLine (split LF s) = split LF s.
Proof.
  intros (Hu & Hp & _ & Hh & Hl).
  pose proof (lines_fixed_from s Hu Hp Hl) as H.
  pose proof (split_first LF s) as Hfirst.
  destruct (split LF s) as [|l ls]; [done |].
  destruct H as ((Htab & Hnd & Hlast) & Hls). cbn [List.map]. f_equal.
  - apply compactLine_fixed; try done.
    destruct l as [|d l']; [done |]. by destruct Hfirst as (_ & t' & ->).
  - induction Hls as [|x xs Hx _ IH]; cbn; [done |]. by rewrite Hx, IH.
Qed.

Lemma Compact_fixed (s : jsstring) : Compact s -> compactWhitespace s = s.
Proof.
  intros H. pose proof H as (Hu & Hp & Hr & Hh & Hl).
  destruct s as [|c0 s0]; [done |].
  unfold compactWhitespace. set (s := c0 :: s0) in *. clearbody s.
  rewrite removeZeroWidth_fixed
    by (eapply Forall_impl; [exact Hu | by intros c (? & _)]).
  rewrite normalizeLineEndings_fixed
    by (eapply Forall_impl; [exact Hu | by intros c (_ & ? & _)]).
  rewrite lines_fixed, join_split by done.
  unfold collapseNewlines. rewrite collapseNewlinesFrom_fixed by done.
  by apply trim_fixed.
Qed.

(** C7.  Normalizing a normalized text changes nothing. *)
Theorem compactWhitespace_idempotent (s : jsstring) :
  compactWhitespace (compactWhitespace s) = compactWhitespace s.
Proof. apply Compact_fixed, compactWhitespace_Compact. Qed.

Lemma Compact_no_triple_LF (s a b : jsstring) :
  Compact s -> s <> a ++ [LF; LF; LF] ++ b.
Proof.
  intros (_ & _ & Hr & _) ->. apply lfRuns_suffix in Hr.
  cbn in Hr. lia.
Qed.

Lemma Compact_no_double_space (s a b : jsstring) :
  Compact s -> s <> a ++ [SP; SP] ++ b.
Proof.
  intros (_ & Hp & _) ->. apply pairwise_suffix in Hp.
  cbn in Hp. destruct Hp as [[Hp _] _]. by apply Hp.
Qed.

(** X2.  What the normalizer guarantees about its result: none of the six
    code points of its class, no carriage return, no tab, single spaces
    only, no white space at the edge of a line or of the text, at most
    two line feeds in a row; and text of that shape is left unchanged. *)
Theorem compactWhitespace_shape (s : jsstring) :
  Compact (compactWhitespace s)
  /\ Forall (fun c => isZeroWidth c = false /\ c <> CR /\ c <> TAB)
            (compactWhitespace s)
  /\ (forall a b, compactWhitespace s <> a ++ [SP; SP] ++ b)
  /\ (forall a b, compactWhitespace s <> a ++ [LF; LF; LF] ++ b)
  /\ headOk (compactWhitespace s) /\ lastOk (compactWhitespace s)
  /\ (Compact s -> compactWhitespace s = s).
Proof.
  pose proof (compactWhitespace_Compact s) as H.
  split; [exact H |]. split; [apply H |].
  split; [intros a b; by apply Compact_no_double_space |].
  split; [intros a b; by apply Compact_no_triple_LF |].
  split; [apply H |]. split; [apply H |]. apply Compact_fixed.
Qed.

Example compactWhitespace_sample :
  compactWhitespace
    (lit "  a   b  " ++ [CR; LF; LF; LF; LF; TAB] ++ lit "c " ++ [8203; LF])
  = lit "a b" ++ [LF; LF] ++ lit "c".
Proof. vm_compute. reflexivity. Qed.

(** C6.  The bell character U+0007, a control character, is outside the
    class the normalizer removes and survives normalization, alone as
    well as inside a text. *)
Theorem compactWhitespace_keeps_control_character :
  compactWhitespace [97; 7; 98] = [97; 7; 98]
  /\ compactWhitespace [7] = [7]
  /\ compactWhitespace [0; 27] = [0; 27].
Proof. vm_compute. repeat split; reflexivity. Qed.

(** ** The deduper *)

(** The last fragment is kept exactly when its fingerprint is neither in
    the set the loop started with nor the fingerprint of an earlier
    fragment. *)
Lemma dedupeLoop_snoc (chunks : list jsstring) (c : jsstring)
    (seen : gset (list Z)) (out : list jsstring) :
  dedupeLoop (chunks ++ [c]) seen out
  = dedupeLoop chunks seen out
      ++ (if decide (hashString c ∈ seen \/ hashString c ∈ hashString <$> chunks)
          then [] else [c]).
Proof.
  revert seen out.
  induction chunks as [|d rest IH]; intros seen out; cbn [dedupeLoop app].
  - destruct (decide (hashString c ∈ seen)) as [Hin | Hnin].
    + rewrite decide_True by (by left). by rewrite app_nil_r.
    + rewrite decide_False; [done |]. rewrite fmap_nil, elem_of_nil. tauto.
  - destruct (decide (hashString d ∈ seen)) as [Hd | Hd]; rewrite IH; f_equal;
      apply decide_ext; rewrite fmap_cons, elem_of_cons.
    + split; [tauto |]. intros [H | [-> | H]]; tauto.
    + rewrite elem_of_union, elem_of_singleton. tauto.
Qed.

Lemma dedupeByHash_snoc (chunks : list jsstring) (c : jsstring) :
  dedupeByHash (chunks ++ [c])
  = dedupeByHash chunks
      ++ (if decide (hashString c ∈ hashString <$> chunks) then [] else [c]).
Proof.
  unfold dedupeByHash. rewrite dedupeLoop_snoc. f_equal.
  apply decide_ext. rewrite elem_of_empty. tauto.
Qed.

Lemma dedupeByHash_sublist (chunks : list jsstring) :
  sublist (dedupeByHash chunks) chunks.
Proof.
  induction chunks as [|c chunks IH] using rev_ind; [constructor |].
  rewrite dedupeByHash_snoc. apply sublist_app; [exact IH |].
  destruct (decide _); [apply sublist_nil_l | reflexivity].
Qed.

Lemma dedupeByHash_fingerprints_NoDup (chunks : list jsstring) :
  NoDup (hashString <$> dedupeByHash chunks).
Proof.
  induction chunks as [|c chunks IH] using rev_ind; [constructor |].
  rewrite dedupeByHash_snoc. destruct (decide _) as [Hin | Hnin].
  - by rewrite app_nil_r.
  - rewrite fmap_app. apply NoDup_app. split; [exact IH |]. split.
    + intros k Hk Hc. apply list_elem_of_singleton in Hc. subst k.
      apply Hnin. apply (elem_of_sublist _ _ _ Hk).
      apply fmap_sublist, dedupeByHash_sublist.
    + apply NoDup_singleton.
Qed.



(** The same text under two different parents gives two blocks. *)
Example repeated_text_across_groups :
  flat_map groupBlock
    [titled "A" [lit "Same text."; lit "Same text."]; titled "B" [lit "Same text."]]
  = [formatDocument (lit "Same text.") (lit "A");
     formatDocument (lit "Same text.") (lit "B")].
Proof. vm_compute. reflexivity. Qed.

(** ** The formatter drops empty groups *)

Lemma rstrip_cons_keep (f : Z -> bool) (c : Z) (t : jsstring) :
  f c = false -> rstrip f (c :: t) <> [].
Proof. intros H. cbn. destruct (rstrip f t); rewrite ?H; discriminate. Qed.

Lemma formatDocument_empty (content citation : jsstring) :
  compactWhitespace content = [] -> formatDocument content citation = [].
Proof. intros H. unfold formatDocument. rewrite H. reflexivity. Qed.

Lemma formatDocument_nonempty (content citation : jsstring) :
  compactWhitespace content <> [] ->
  formatDocument content citation
  = lit "<context source=" ++ [QUOTE] ++ escapeAttr citation ++ [QUOTE]
      ++ lit ">" ++ [LF] ++ compactWhitespace content ++ [LF] ++ closeTag
  /\ trim (formatDocument content citation) <> [].
Proof.
  intros H. unfold formatDocument.
  destruct (compactWhitespace content) as [|c r] eqn:E; [congruence |].
  split; [reflexivity |].
  cbn. apply (rstrip_cons_keep isSpace 60). reflexivity.
Qed.

(** C9.  A group whose condensed text normalizes to the empty string
    contributes no block, wherever it stands among the groups, and a
    group that does contribute a block contributes one whose inner text
    is the non-empty normalized text. *)
Theorem empty_group_yields_no_block (g : Group) :
  (compactWhitespace (condense g) = [] ->
     groupBlock g = []
     /\ forall before after : list Group,
          flat_map groupBlock (before ++ g :: after)
          = flat_map groupBlock (before ++ after))
  /\ (forall b : jsstring, In b (groupBlock g) ->
        compactWhitespace (condense g) <> []
        /\ b = lit "<context source=" ++ [QUOTE]
                 ++ escapeAttr (default (lit "(untitled)") (g_title g))
                 ++ [QUOTE] ++ lit ">" ++ [LF]
                 ++ compactWhitespace (condense g) ++ [LF] ++ closeTag).
Proof.
  split.
  - intros H.
    assert (Hg : groupBlock g = []).
    { unfold groupBlock. rewrite (formatDocument_empty _ _ H). reflexivity. }
    split; [exact Hg |].
    intros before after. rewrite !flat_map_app. cbn. rewrite Hg. reflexivity.
  - intros b Hb. unfold groupBlock in Hb.
    destruct (compactWhitespace (condense g)) as [|c r] eqn:E.
    + rewrite (formatDocument_empty _ _ E) in Hb. destruct Hb.
    + assert (Hne : compactWhitespace (condense g) <> []) by (rewrite E; discriminate).
      destruct (formatDocument_nonempty (condense g)
                  (default (lit "(untitled)") (g_title g)) Hne) as [Hf _].
      split; [discriminate |].
      rewrite Hf, E in Hb.
      destruct (0 <? len (trim _)) in Hb; [| destruct Hb].
      destruct Hb as [<- | []]. reflexivity.
Qed.

Lemma empty_group_yields_no_block_witness :
  groupBlock blankGroup = []
  /\ forall before after : list Group,
       flat_map groupBlock (before ++ blankGroup :: after)
       = flat_map groupBlock (before ++ after).
Proof.
  apply (proj1 (empty_group_yields_no_block blankGroup)).
  vm_compute. reflexivity.
Defined.

(** ** The budget stitcher *)

Lemma estimateTokens_nonneg (s : jsstring) : 0 <= estimateTokens s.
Proof.
  unfold estimateTokens. apply Z.div_pos; [| lia].
  pose proof (len_nonneg s). lia.
Qed.

(** A text fits [r] tokens exactly when it has at most [4 * r] units. *)
Lemma estimateTokens_le (s : jsstring) (r : Z) :
  estimateTokens s <= r <-> len s <= 4 * r.
Proof.
  unfold estimateTokens. pose proof (len_nonneg s).
  pose proof (Z.div_mod (len s + 3) 4 ltac:(lia)).
  pose proof (Z.mod_pos_bound (len s + 3) 4 ltac:(lia)).
  lia.
Qed.

Lemma tokensOf_nonneg (pieces : list jsstring) : 0 <= tokensOf pieces.
Proof.
  induction pieces as [|p ps IH]; cbn [tokensOf]; [lia |].
  pose proof (estimateTokens_nonneg p). lia.
Qed.

Lemma stitchLoop_fits (pre rest : list jsstring) (maxTokens : Z)
    (out : list jsstring) (used : Z) :
  used + tokensOf pre <= maxTokens ->
  stitchLoop (pre ++ rest) maxTokens out used
  = stitchLoop rest maxTokens (out ++ pre) (used + tokensOf pre).
Proof.
  revert out used.
  induction pre as [|p pre IH]; intros out used H;
    cbn [tokensOf stitchLoop app] in *.
  - by rewrite app_nil_r, Z.add_0_r.
  - pose proof (tokensOf_nonneg pre).
    destruct (Z.leb_spec (used + estimateTokens p) maxTokens); [| lia].
    rewrite IH by lia. f_equal; [by rewrite <- app_assoc | lia].
Qed.

Lemma stitchLoop_unfit (p : jsstring) (rest : list jsstring) (maxTokens : Z)
    (out : list jsstring) (used : Z) :
  maxTokens < used + estimateTokens p ->
  stitchLoop (p :: rest) maxTokens out used
  = if 0 <? maxTokens - used then out ++ [trimPiece p (maxTokens - used)]
    else out.
Proof.
  intros H. cbn [stitchLoop].
  destruct (Z.leb_spec (used + estimateTokens p) maxTokens); [lia |].
  destruct (Z.ltb_spec 0 (maxTokens - used)).
  - rewrite Z.max_r by lia. destruct (Z.leb_spec (maxTokens - used) 0); [lia | done].
  - rewrite Z.max_l by lia. done.
Qed.

(** *** Positions of the last break *)

Lemma lastIndexOf_unit (x : Z) (s : jsstring) (i best : Z) :
  lastIndexOfFrom [x] s i best = lastWhereFrom (Z.eqb x) s i best.
Proof.
  revert i best. induction s as [|c t IH]; intros i best; cbn; [done |].
  by rewrite andb_true_r, IH.
Qed.

Lemma lastWhereFrom_ext (f g : Z -> bool) (s : jsstring) (i best : Z) :
  (forall c, f c = g c) ->
  lastWhereFrom f s i best = lastWhereFrom g s i best.
Proof.
  intros E. revert i best. induction s as [|c t IH]; intros i best; cbn; [done |].
  by rewrite E, IH.
Qed.

Lemma lastWhereFrom_max (f g : Z -> bool) (s : jsstring) (i b1 b2 : Z) :
  b1 < i -> b2 < i ->
  Z.max (lastWhereFrom f s i b1) (lastWhereFrom g s i b2)
  = lastWhereFrom (fun c => f c || g c) s i (Z.max b1 b2).
Proof.
  revert i b1 b2. induction s as [|c t IH]; intros i b1 b2 H1 H2; cbn; [done |].
  rewrite IH by (destruct (f c), (g c); lia).
  f_equal. destruct (f c), (g c); cbn; lia.
Qed.

Lemma lastWhereFrom_spec (f : Z -> bool) (s : jsstring) (i best : Z) :
  (lastWhereFrom f s i best = best /\ Forall (fun c => f c = false) s)
  \/ (exists a c b, s = a ++ c :: b /\ f c = true
        /\ Forall (fun c => f c = false) b
        /\ lastWhereFrom f s i best = i + len a).
Proof.
  revert i best. induction s as [|c t IH]; intros i best; cbn.
  - left. split; [done | constructor].
  - destruct (IH (i + 1) (if f c then i else best))
      as [[Hr Hall] | (a & c' & b & -> & Hc' & Hb & Hr)].
    + destruct (f c) eqn:Hc.
      * right. exists [], c, t. repeat split; try done. rewrite Hr.
        unfold len. cbn [length]. lia.
      * left. split; [done | by constructor].
    + right. exists (c :: a), c', b. repeat split; try done.
      rewrite Hr. unfold len. cbn [length]. lia.
Qed.

(** The [lastBreak] of [safeTrimToChars] is the position of the last
    newline, space or tab of the slice. *)
Lemma lastBreak_lastWhere (w : jsstring) :
  Z.max (Z.max (lastIndexOf w [LF]) (lastIndexOf w [SP])) (lastIndexOf w [TAB])
  = lastWhereFrom isBreak w 0 (-1).
Proof.
  unfold lastIndexOf. rewrite !lastIndexOf_unit.
  rewrite !lastWhereFrom_max by lia. apply lastWhereFrom_ext.
  intros c. unfold isBreak. by rewrite !(Z.eqb_sym c).
Qed.

(** *** The trimmer *)

Lemma last_match_unique (f : Z -> bool) (a a' b b' : jsstring) (c c' : Z) :
  a ++ c :: b = a' ++ c' :: b' ->
  f c = true -> f c' = true ->
  Forall (fun x => f x = false) b -> Forall (fun x => f x = false) b' ->
  a = a'.
Proof.
  revert a'. induction a as [|x a IH]; intros [|y a'] E Hc Hc' Hb Hb'; cbn in E.
  - done.
  - injection E as -> ->. rewrite Forall_app, Forall_cons in Hb.
    destruct Hb as (_ & Hf & _). congruence.
  - injection E as -> <-. rewrite Forall_app, Forall_cons in Hb'.
    destruct Hb' as (_ & Hf & _). congruence.
  - injection E as -> E. f_equal. by apply (IH a').
Qed.

Lemma safeTrimToChars_short (s : jsstring) (n : Z) :
  len s <= n -> safeTrimToChars s n = s.
Proof.
  intros H. unfold safeTrimToChars.
  by destruct (Z.leb_spec (len s) n); [| lia].
Qed.

Lemma safeTrimToChars_long (s : jsstring) (n : Z) :
  1 <= n -> n < len s ->
  exists kept,
    safeTrimToChars s n = rstrip isTrailing kept ++ [ELLIPSIS]
    /\ CutsAt s n kept
    /\ len (safeTrimToChars s n) <= n.
Proof.
  intros Hn Hlen. unfold safeTrimToChars.
  destruct (Z.leb_spec (len s) n); [lia |].
  rewrite (Z.max_r 0 (n - 1)) by lia. rewrite slice_0 by lia.
  set (w := take (Z.to_nat (n - 1)) s).
  assert (Hw : len w = n - 1).
  { unfold w, len in *. rewrite length_take. lia. }
  rewrite lastBreak_lastWhere.
  assert (Hbound : forall kept, len kept <= len w ->
            len (rstrip isTrailing kept ++ [ELLIPSIS]) <= n).
  { intros kept Hk. rewrite len_app. pose proof (rstrip_len isTrailing kept).
    unfold len at 2. cbn [length]. lia. }
  destruct (lastWhereFrom_spec isBreak w 0 (-1))
    as [[-> Hall] | (a & c & b & Hdec & Hc & Hb & ->)].
  - unfold pastSixtyPercent. destruct (Z.ltb_spec (3 * n) (5 * -1)); [lia |].
    exists w. split; [done |]. split; [| apply Hbound; lia].
    right. split; [done |]. intros a c b E Hc _. exfalso.
    fold w in E. rewrite E, Forall_app, Forall_cons in Hall.
    destruct Hall as (_ & Hf & _). congruence.
  - rewrite Z.add_0_l. unfold pastSixtyPercent.
    destruct (Z.ltb_spec (3 * n) (5 * len a)) as [Hpast | Hpast].
    + rewrite slice_0 by apply len_nonneg.
      assert (Ha : take (Z.to_nat (len a)) w = a).
      { unfold len. rewrite Nat2Z.id, Hdec. apply take_app_length. }
      rewrite Ha. exists a. split; [done |]. split.
      * left. exists c, b. fold w. by repeat split.
      * apply Hbound. rewrite Hdec, len_app. pose proof (len_nonneg (c :: b)). lia.
    + exists w. split; [done |]. split; [| apply Hbound; lia].
      right. split; [done |]. intros a' c' b' E Hc' Hb'. fold w in E.
      assert (a = a') as <-; [| done].
      eapply (last_match_unique isBreak); [| exact Hc | exact Hc' | exact Hb | exact Hb'].
      by rewrite <- Hdec, <- E.
Qed.

(** X3.  Blocks that fit the budget one after the other are all kept,
    joined by single line feeds; once the budget is used up exactly, the
    next block that costs anything and every block behind it are left
    out. *)
Theorem stitch_keeps_fitting_blocks
    (pre rest : list jsstring) (p : jsstring) (maxTokens : Z) :
  (tokensOf pre <= maxTokens ->
     stitchWithTokenBudget pre maxTokens = join [LF] pre)
  /\ (tokensOf pre = maxTokens -> 0 < estimateTokens p ->
     stitchWithTokenBudget (pre ++ p :: rest) maxTokens = join [LF] pre).
Proof.
  unfold stitchWithTokenBudget. split.
  - intros H. rewrite <- (app_nil_r pre) at 1.
    rewrite stitchLoop_fits by lia. done.
  - intros H Hp. rewrite stitchLoop_fits by lia.
    rewrite stitchLoop_unfit by lia.
    destruct (Z.ltb_spec 0 (maxTokens - (0 + tokensOf pre))); [lia | done].
Qed.

Lemma stitch_keeps_fitting_blocks_witness :
  stitchWithTokenBudget ([sampleBlock; sampleBlock] ++ longBlock :: []) 18
  = join [LF] [sampleBlock; sampleBlock].
Proof.
  apply (proj2 (stitch_keeps_fitting_blocks [sampleBlock; sampleBlock] [] longBlock 18)).
  - vm_compute. reflexivity.
  - vm_compute. reflexivity.
Defined.

(** C5.  The sample block does not fit a budget of 8 while 8 tokens
    remain.  The stitcher has to trim it, and a block without the
    wrapper is always trimmed there; but only the inner text of the
    wrapped block is measured against the 32 units allowed, so the block
    is pushed as it is, 9 estimated tokens long and without any ellipsis
    marker. *)
Lemma stitch_keeps_short_inner_text :
  estimateTokens sampleBlock = 9
  /\ stitchWithTokenBudget [sampleBlock] 8 = sampleBlock
  /\ existsb (Z.eqb ELLIPSIS) (stitchWithTokenBudget [sampleBlock] 8) = false.
Proof. vm_compute. repeat split; reflexivity. Qed.

(** A block of the same length without the wrapper is trimmed at the
    same budget: the result keeps to the 8 tokens and carries the
    marker. *)
Example stitch_trims_raw_block :
  let raw := lit "alpha beta gamma delta epsilon zeta!" in
  len raw = 36
  /\ estimateTokens raw = 9
  /\ stitchWithTokenBudget [raw] 8
     = lit "alpha beta gamma delta epsilon" ++ [ELLIPSIS]
  /\ estimateTokens (stitchWithTokenBudget [raw] 8) = 8.
Proof. vm_compute. repeat split; reflexivity. Qed.

(** X22.  When the blocks before [p] fit, [p] does not and tokens
    remain, the stitcher keeps the earlier blocks whole, pushes what the
    trimming branch makes of [p] and looks at no later block.  If [p] contains [>] and
    the closing tag, it is split after the first [>] and before the last
    closing tag, and only the inner text goes through the trimmer;
    otherwise the raw block does.  The trimmer with limit
    [remaining * 4] returns a text that is not longer than the limit
    unchanged, without marker; a longer text is cut to its first
    [limit - 1] units, or right before the last newline, space or tab
    among them when that lies past 60% of the limit, loses its trailing
    white space and gets the ellipsis marker, at most [limit] units in
    all. *)
Theorem stitch_trims_first_unfit_block
    (pre rest : list jsstring) (p : jsstring) (maxTokens : Z) :
  let used := tokensOf pre in
  let remaining := maxTokens - used in
  let limit := remaining * 4 in
  let openIdx := indexOf p (lit ">") in
  let closeIdx := lastIndexOf p closeTag in
  used <= maxTokens ->
  maxTokens < used + estimateTokens p ->
  0 < remaining ->
  stitchWithTokenBudget (pre ++ p :: rest) maxTokens
  = join [LF] (pre ++ [trimPiece p remaining])
  /\ (openIdx <> -1 /\ closeIdx <> -1 ->
      trimPiece p remaining
      = slice p 0 (openIdx + 1)
          ++ safeTrimToChars (slice p (openIdx + 1) closeIdx) limit
          ++ sliceFrom p closeIdx)
  /\ (openIdx = -1 \/ closeIdx = -1 ->
      trimPiece p remaining = safeTrimToChars p limit
      /\ ELLIPSIS ∈ trimPiece p remaining)
  /\ (forall s : jsstring, len s <= limit -> safeTrimToChars s limit = s)
  /\ (forall s : jsstring, limit < len s ->
      exists kept,
        safeTrimToChars s limit = rstrip isTrailing kept ++ [ELLIPSIS]
        /\ CutsAt s limit kept
        /\ len (safeTrimToChars s limit) <= limit).
Proof.
  intros used remaining limit openIdx closeIdx Hused Hunfit Hrem.
  split.
  { unfold stitchWithTokenBudget. rewrite stitchLoop_fits by (fold used; lia).
    rewrite stitchLoop_unfit by (fold used; lia).
    rewrite Z.add_0_l. fold used. fold remaining. cbn [app].
    destruct (Z.ltb_spec 0 remaining); [done | lia]. }
  split.
  { intros [Ho Hc]. unfold trimPiece. fold openIdx closeIdx limit.
    destruct (Z.eqb_spec openIdx (-1)); [done |].
    by destruct (Z.eqb_spec closeIdx (-1)). }
  split.
  { intros Hmiss.
    assert (E : trimPiece p remaining = safeTrimToChars p limit).
    { unfold trimPiece. fold openIdx closeIdx limit.
      destruct (Z.eqb_spec openIdx (-1)); [done |].
      destruct (Z.eqb_spec closeIdx (-1)); [done | lia]. }
    split; [exact E |]. rewrite E.
    assert (Hlong : limit < len p).
    { destruct (Z.le_gt_cases (len p) limit) as [Hle |]; [| lia].
      assert (estimateTokens p <= remaining)
        by (apply estimateTokens_le; unfold limit in Hle; lia).
      unfold remaining in *. lia. }
    destruct (safeTrimToChars_long p limit ltac:(unfold limit; lia) Hlong)
      as (kept & -> & _).
    apply elem_of_app. right. apply list_elem_of_here. }
  split.
  { intros s. apply safeTrimToChars_short. }
  intros s Hs. apply safeTrimToChars_long; [unfold limit; lia | done].
Qed.

Lemma stitch_trims_first_unfit_block_witness :
  stitchWithTokenBudget ([sampleBlock] ++ longBlock :: [sampleBlock]) 12
  = join [LF] ([sampleBlock] ++ [trimPiece longBlock (12 - tokensOf [sampleBlock])]).
Proof.
  apply (stitch_trims_first_unfit_block [sampleBlock] [sampleBlock] longBlock 12).
  - vm_compute. discriminate.
  - vm_compute. reflexivity.
  - vm_compute. reflexivity.
Defined.

(** Scenario F of the specification: the second block is cut after
    [alpha beta] and carries the marker. *)
Example stitch_scenario_F :
  stitchWithTokenBudget [sampleBlock; longBlock; sampleBlock] 12
  = sampleBlock ++ [LF]
      ++ lit "<context source=" ++ [QUOTE] ++ lit "b" ++ [QUOTE] ++ lit ">"
      ++ [LF] ++ lit "alpha beta" ++ [ELLIPSIS] ++ lit "</context>".
Proof. vm_compute. reflexivity. Qed.

Example sampleBlock_text :
  sampleBlock = lit "<context source=" ++ [QUOTE] ++ lit "a" ++ [QUOTE]
                  ++ lit ">" ++ [LF] ++ lit "xyzw" ++ [LF] ++ lit "</context>".
Proof. reflexivity. Qed.

(** C1.  Two blocks of 9 estimated tokens each fit a budget of 18 one by
    one, but the newline that joins them is not counted: the stitched
    string has 73 code units, 19 estimated tokens.  A single block that
    does not fit a budget of 8 is re-wrapped around its untouched inner
    text and comes out whole, at 9 estimated tokens. *)
Theorem stitchWithTokenBudget_exceeds_budget :
  estimateTokens sampleBlock = 9
  /\ stitchWithTokenBudget [sampleBlock; sampleBlock] 18
     = sampleBlock ++ [LF] ++ sampleBlock
  /\ estimateTokens (stitchWithTokenBudget [sampleBlock; sampleBlock] 18) = 19
  /\ estimateTokens (stitchWithTokenBudget [sampleBlock] 8) = 9.
Proof. vm_compute. repeat split; reflexivity. Qed.

(** *** The 60% test in binary64 arithmetic *)

(** For every limit up to 800 and every position from -1 up to the
    limit, the binary64 test and the exact test agree. *)
Lemma pastSixtyPercent_binary64 :
  forallb (fun n =>
    forallb (fun k => Bool.eqb (pastSixtyPercent k n) (pastSixtyPercentFloat k n))
            (seqZ (-1) (n + 2)))
    (seqZ 0 801) = true.
Proof. vm_compute. reflexivity. Qed.

(** ** The conversation window *)

Lemma filter_Forall_true {A} (f : A -> bool) (l : list A) :
  Forall (fun x => f x = true) (List.filter f l).
Proof.
  induction l as [|x l IH]; cbn; [constructor |].
  destruct (f x) eqn:E; [by constructor | done].
Qed.

Lemma filter_fixed {A} (f : A -> bool) (l : list A) :
  Forall (fun x => f x = true) l -> List.filter f l = l.
Proof. induction 1 as [|x l Hx _ IH]; cbn; [done |]. by rewrite Hx, IH. Qed.

Lemma find_none_Forall {A} (f : A -> bool) (l : list A) :
  Forall (fun x => f x = false) l -> List.find f l = None.
Proof. induction 1 as [|x l Hx _ IH]; cbn; [done |]. by rewrite Hx. Qed.

Lemma sliceFromList_suffix {A} (l : list A) (from : Z) :
  App.sliceFromList l from `suffix_of` l.
Proof. apply suffix_drop. Qed.

Lemma sliceFromList_last {A} (l : list A) (n : Z) :
  1 <= n ->
  Z.of_nat (length (App.sliceFromList l (- n))) = Z.min (Z.of_nat (length l)) n.
Proof.
  intros Hn. unfold App.sliceFromList, clampIndex.
  destruct (Z.ltb_spec (- n) 0); [| lia]. rewrite length_drop. lia.
Qed.

Lemma sliceFromList_all {A} (l : list A) (n : Z) :
  n = 0 \/ Z.of_nat (length l) <= n -> App.sliceFromList l (- n) = l.
Proof.
  intros Hn. unfold App.sliceFromList, clampIndex.
  destruct (Z.ltb_spec (- n) 0).
  - replace (Z.to_nat _) with 0%nat by lia. apply drop_0.
  - replace (Z.to_nat _) with 0%nat by lia. apply drop_0.
Qed.

(** X4.  [trimToLastN] with a positive window returns the first system
    message, if there is one, followed by a suffix of the other messages
    in their order; every later system message is dropped.  The result
    has at most [max] messages unless [max] is 1 and a system message
    exists, in which case all other messages are kept behind it.  A
    conversation that starts with its only system message and fits the
    window is returned unchanged, and trimming twice is trimming once. *)
Theorem trimToLastN_window (messages : list App.Message) (max : Z) :
  1 <= max ->
  let nonSystem := List.filter (fun m => negb (App.isSystem m)) in
  let kept := App.trimToLastN messages max in
  kept = option_list (List.find App.isSystem messages) ++ nonSystem kept
  /\ nonSystem kept `suffix_of` nonSystem messages
  /\ (List.find App.isSystem messages = None \/ 2 <= max ->
      Z.of_nat (length kept) <= max)
  /\ (forall h, List.find App.isSystem messages = Some h -> max = 1 ->
      kept = h :: nonSystem messages)
  /\ (forall h rest, messages = h :: rest -> App.isSystem h = true ->
      nonSystem rest = rest -> Z.of_nat (length messages) <= max ->
      kept = messages)
  /\ App.trimToLastN kept max = kept.
Proof.
  intros Hmax nonSystem kept. subst nonSystem kept. cbv beta.
  set (nonSys := fun m : App.Message => negb (App.isSystem m)).
  set (ns := List.filter nonSys messages).
  assert (Hns : forall from, List.filter nonSys (App.sliceFromList ns from)
                             = App.sliceFromList ns from).
  { intros from. apply filter_fixed.
    unfold App.sliceFromList. apply Forall_drop, filter_Forall_true. }
  assert (Hfree : forall from,
            List.find App.isSystem (App.sliceFromList ns from) = None).
  { intros from. apply find_none_Forall.
    eapply Forall_impl; [apply Forall_drop, (filter_Forall_true _ messages) |].
    intros m. unfold nonSys. cbn. by destruct (App.isSystem m). }
  assert (Hagain : forall n, 1 <= n \/ n = 0 ->
            App.sliceFromList (App.sliceFromList ns (- n)) (- n)
            = App.sliceFromList ns (- n)).
  { intros n [Hn | ->]; [| by rewrite !sliceFromList_all by lia].
    apply sliceFromList_all. right.
    rewrite (sliceFromList_last ns n Hn). lia. }
  unfold App.trimToLastN.
  destruct (Z.leb_spec max 0) as [| _]; [lia |].
  fold nonSys. fold ns.
  destruct (List.find App.isSystem messages) as [h |] eqn:Hfind.
  - pose proof (List.find_some _ _ Hfind) as [_ Hh].
    assert (Hk : forall from, List.filter nonSys (h :: App.sliceFromList ns from)
                              = App.sliceFromList ns from).
    { intros from. cbn [List.filter]. unfold nonSys at 1. rewrite Hh. cbn. apply Hns. }
    rewrite Hk. split; [done |]. split; [apply sliceFromList_suffix |].
    split.
    { intros [? | H2]; [done |]. cbn [length].
      pose proof (sliceFromList_last ns (Z.max 0 (max - 1)) ltac:(lia)). lia. }
    split.
    { intros h' [= <-] ->. f_equal. apply sliceFromList_all. lia. }
    split.
    { intros h' rest Hm Hh' Hrest Hlen.
      assert (h = h') as <-.
      { rewrite Hm in Hfind. cbn in Hfind. rewrite Hh' in Hfind. congruence. }
      transitivity (h :: rest); [f_equal | by rewrite Hm].
      assert (Hrest' : ns = rest).
      { unfold ns. rewrite Hm. cbn [List.filter]. unfold nonSys at 1.
        rewrite Hh. exact Hrest. }
      rewrite Hrest'. apply sliceFromList_all.
      rewrite Hm in Hlen. cbn [length] in Hlen. lia. }
    cbn [List.find]. rewrite Hh. f_equal. apply Hagain. lia.
  - cbn [option_list app]. rewrite Hns. split; [done |].
    split; [apply sliceFromList_suffix |].
    pose proof (sliceFromList_last ns max Hmax) as Hl.
    split; [intros _; lia |].
    split; [done |].
    split.
    { intros h rest Hm Hh. rewrite Hm in Hfind. cbn in Hfind.
      by rewrite Hh in Hfind. }
    rewrite Hfree. apply Hagain. lia.
Qed.

Lemma trimToLastN_window_witness :
  App.trimToLastN (App.trimToLastN sampleChat 3) 3 = App.trimToLastN sampleChat 3.
Proof.
  pose proof (trimToLastN_window sampleChat 3 ltac:(lia)) as H.
  cbv zeta in H. apply H.
Defined.

Example trimToLastN_sample :
  App.trimToLastN sampleChat 3
  = [chatMessage "system" "rules"; chatMessage "model" "a1"; chatMessage "user" "q2"]
  /\ App.trimToLastN sampleChat 1
     = [chatMessage "system" "rules"; chatMessage "user" "q1";
        chatMessage "model" "a1"; chatMessage "user" "q2"]
  /\ App.trimToLastN sampleChat 0 = [].
Proof. vm_compute. repeat split; reflexivity. Qed.

(** ** Purging a user's older conversations *)

Lemma endsWith_app (a b : jsstring) : App.endsWith (a ++ b) b = true.
Proof.
  unfold App.endsWith. rewrite length_app.
  replace (length a + length b - length b)%nat with (length a) by lia.
  rewrite drop_app_length. rewrite bool_decide_eq_true_2 by done.
  rewrite andb_true_r. apply Nat.leb_le. lia.
Qed.

Lemma removeFirst_middle (k : jsstring) (pre rest : list jsstring) :
  k ∉ pre -> App.removeFirst k (pre ++ k :: rest) = pre ++ rest.
Proof.
  induction pre as [|x pre IH]; intros Hk; cbn.
  - by rewrite decide_True.
  - apply not_elem_of_cons in Hk as [Hx Hk].
    rewrite decide_False by done. by rewrite IH.
Qed.

Lemma removeFirst_elem (k x : jsstring) (l : list jsstring) :
  x <> k -> x ∈ App.removeFirst k l <-> x ∈ l.
Proof.
  intros Hx. induction l as [|y l IH]; cbn; [done |].
  destruct (decide (y = k)) as [-> | Hy].
  - rewrite elem_of_cons. split; [tauto | intros [? | ?]; [done | tauto]].
  - by rewrite !elem_of_cons, IH.
Qed.

Lemma purgeLoop_done (fuel i : nat) (userId current : jsstring)
    (st : App.LocalStorage) :
  (length (App.keys st) <= i)%nat ->
  App.purgeLoop fuel i userId current st = st.
Proof.
  intros Hi. destruct fuel; [done |]. cbn [App.purgeLoop].
  by rewrite lookup_ge_None_2.
Qed.

(** One step of the loop, by whether the key it reads is stale. *)
Lemma purgeLoop_step (fuel i : nat) (userId current key : jsstring)
    (st : App.LocalStorage) :
  App.keys st !! i = Some key ->
  App.purgeLoop (S fuel) i userId current st
  = App.purgeLoop fuel (S i) userId current
      (if stale userId current key then App.storageDelete key st else st).
Proof.
  intros Hk. cbn [App.purgeLoop]. rewrite Hk. unfold stale.
  destruct (App.endsWith key (lit "/" ++ userId)); cbn [negb andb]; [| done].
  by destruct (bool_decide (key = current)).
Qed.

(** Keys that are not stale are never touched, whatever the array
    holds. *)
Lemma purgeLoop_safe (fuel : nat) :
  forall (i : nat) (userId current k : jsstring) (st : App.LocalStorage),
    stale userId current k = false ->
    App.entries (App.purgeLoop fuel i userId current st) !! k
    = App.entries st !! k
    /\ (k ∈ App.keys (App.purgeLoop fuel i userId current st)
        <-> k ∈ App.keys st).
Proof.
  induction fuel as [|fuel IH]; intros i userId current k st Hk; [done |].
  destruct (App.keys st !! i) as [key |] eqn:Hi.
  - rewrite (purgeLoop_step _ _ _ _ _ _ Hi).
    destruct (IH (S i) userId current k
                (if stale userId current key then App.storageDelete key st else st)
                Hk) as [He Hin].
    rewrite He, Hin. destruct (stale userId current key) eqn:Hs; [| done].
    assert (k <> key) by congruence. cbn.
    split; [by apply lookup_delete_ne | by apply removeFirst_elem].
  - cbn [App.purgeLoop]. by rewrite Hi.
Qed.

Lemma deletes_lookup (l : list jsstring) (m : gmap (list Z) (list App.Message))
    (x : jsstring) :
  fold_left (fun m k => delete k m) l m !! x
  = if decide (x ∈ l) then None else m !! x.
Proof.
  revert m. induction l as [|k l IH]; intros m; cbn [fold_left].
  - rewrite decide_False; [done | apply not_elem_of_nil].
  - rewrite IH. destruct (decide (x ∈ l)) as [Hin | Hnin].
    + rewrite decide_True; [done | by right].
    + destruct (decide (x = k)) as [-> | Hne].
      * rewrite lookup_delete_eq. rewrite decide_True; [done | by left].
      * rewrite lookup_delete_ne by done.
        rewrite decide_False; [done |]. rewrite elem_of_cons. tauto.
Qed.

(** The loop from position [length pre], the array being [pre ++ post]. *)
Lemma purgeLoop_view (fuel : nat) :
  forall (pre post : list jsstring) (userId current : jsstring)
         (st : App.LocalStorage),
    App.keys st = pre ++ post -> NoDup (App.keys st) ->
    (length post <= fuel)%nat ->
    App.keys (App.purgeLoop fuel (length pre) userId current st)
    = pre ++ survivors userId current post
    /\ App.entries (App.purgeLoop fuel (length pre) userId current st)
       = fold_left (fun m k => delete k m) (removed userId current post)
           (App.entries st).
Proof.
  induction fuel as [|fuel IH]; intros pre post userId current st Hk Hnd Hf.
  - destruct post; [| cbn in Hf; lia].
    cbn [App.purgeLoop survivors removed fold_left]. by rewrite Hk.
  - destruct post as [|k rest].
    + rewrite purgeLoop_done; [by rewrite Hk |]. rewrite Hk, length_app. cbn. lia.
    + assert (Hi : App.keys st !! length pre = Some k).
      { rewrite Hk. by apply list_lookup_middle. }
      rewrite (purgeLoop_step _ _ _ _ _ _ Hi). cbn [survivors removed].
      destruct (stale userId current k) eqn:Hs.
      * assert (Hpre : k ∉ pre).
        { rewrite Hk in Hnd. apply NoDup_app in Hnd as (_ & Hd & _).
          intros Hin. apply (Hd _ Hin). by left. }
        assert (Hk' : App.keys (App.storageDelete k st) = pre ++ rest).
        { cbn. rewrite Hk. by apply removeFirst_middle. }
        assert (Hnd' : NoDup (App.keys (App.storageDelete k st))).
        { rewrite Hk'. rewrite Hk in Hnd.
          apply NoDup_app in Hnd as (H1 & H2 & H3).
          apply NoDup_cons in H3 as [_ H3].
          apply NoDup_app. split; [done |]. split; [| done].
          intros x Hx Hr. apply (H2 _ Hx). by right. }
        destruct rest as [|k' rest'].
        -- rewrite purgeLoop_done; [by rewrite Hk' |].
           rewrite Hk', length_app. cbn. lia.
        -- replace (S (length pre)) with (length (pre ++ [k']))
             by (rewrite length_app; cbn; lia).
           destruct (IH (pre ++ [k']) rest' userId current (App.storageDelete k st))
             as [H1 H2].
           { by rewrite Hk', <- app_assoc. }
           { done. }
           { cbn in Hf. lia. }
           rewrite H1, H2, <- app_assoc. done.
      * replace (S (length pre)) with (length (pre ++ [k]))
          by (rewrite length_app; cbn; lia).
        destruct (IH (pre ++ [k]) rest userId current st) as [H1 H2].
        { by rewrite Hk, <- app_assoc. }
        { done. }
        { cbn in Hf. lia. }
        rewrite H1, H2, <- app_assoc. done.
Qed.

(** Induction along the walk of the loop. *)
Lemma walk_ind (userId current : jsstring) (P : list jsstring -> Prop) :
  P [] ->
  (forall k, stale userId current k = true -> P [k]) ->
  (forall k k' rest, stale userId current k = true -> P rest -> P (k :: k' :: rest)) ->
  (forall k rest, stale userId current k = false -> P rest -> P (k :: rest)) ->
  forall l, P l.
Proof.
  intros Hnil Hone Hskip Hkeep l.
  assert (H : P l /\ forall k, P (k :: l)); [| tauto].
  induction l as [|x l [IH1 IH2]].
  - split; [done |]. intros k.
    destruct (stale userId current k) eqn:Hs; [by apply Hone | by apply Hkeep].
  - split; [apply IH2 |]. intros k.
    destruct (stale userId current k) eqn:Hs; [by apply Hskip | by apply Hkeep].
Qed.

Lemma removed_stale (userId current : jsstring) (l : list jsstring) :
  Forall (fun k => stale userId current k = true) (removed userId current l)
  /\ removed userId current l `sublist_of` l
  /\ survivors userId current l `sublist_of` l.
Proof.
  induction l as [| k Hk | k k' rest Hk IH | k rest Hk IH]
    using (walk_ind userId current); cbn [removed survivors]; rewrite ?Hk.
  - done.
  - split; [by repeat constructor |].
    split; [done | apply sublist_nil_l].
  - destruct IH as (H1 & H2 & H3). split; [by constructor |].
    split; [by apply sublist_skip, sublist_cons | by apply sublist_cons, sublist_skip].
  - destruct IH as (H1 & H2 & H3). split; [done |].
    split; [by apply sublist_cons | by apply sublist_skip].
Qed.

Lemma walk_count (userId current : jsstring) (l : list jsstring) :
  length (List.filter (stale userId current) l)
  = (length (removed userId current l)
     + length (List.filter (stale userId current) (survivors userId current l)))%nat
  /\ (length (List.filter (stale userId current) (survivors userId current l))
      <= length (removed userId current l))%nat.
Proof.
  induction l as [| k Hk | k k' rest Hk IH | k rest Hk IH]
    using (walk_ind userId current);
    cbn [removed survivors List.filter length]; rewrite ?Hk;
    cbn [removed survivors List.filter length].
  - lia.
  - lia.
  - destruct IH as [H1 H2].
    destruct (stale userId current k'); cbn [length]; lia.
  - rewrite ?Hk. lia.
Qed.

Lemma walk_clean (userId current : jsstring) (pre post : list jsstring) :
  Forall (fun x => stale userId current x = false) pre ->
  survivors userId current (pre ++ post) = pre ++ survivors userId current post
  /\ removed userId current (pre ++ post) = removed userId current post.
Proof.
  induction 1 as [|x pre Hx _ [IH1 IH2]]; [done |].
  cbn [app survivors removed]. rewrite Hx. by rewrite IH1, IH2.
Qed.

Lemma purge_view (storage : App.LocalStorage) (userId current : jsstring) :
  NoDup (App.keys storage) ->
  forall fuel, (length (App.keys storage) <= fuel)%nat ->
    App.keys (App.purgeLoop fuel 0 userId current storage)
    = survivors userId current (App.keys storage)
    /\ App.entries (App.purgeLoop fuel 0 userId current storage)
       = fold_left (fun m k => delete k m)
           (removed userId current (App.keys storage)) (App.entries storage).
Proof.
  intros Hnd fuel Hf.
  by apply (purgeLoop_view fuel [] (App.keys storage) userId current storage).
Qed.

Lemma purge_unfold (storage : App.LocalStorage) (userId current : jsstring) :
  App.purgeOlderConversationsForUser storage userId current
  = App.purgeLoop (length (App.keys storage)) 0 userId current storage.
Proof.
  unfold App.purgeOlderConversationsForUser.
  by destruct (App.keys storage) eqn:E.
Qed.

Lemma storage_eq (a b : App.LocalStorage) :
  App.keys a = App.keys b -> App.entries a = App.entries b -> a = b.
Proof. destruct a, b; cbn; by intros -> ->. Qed.

(** The first stale key of the array is deleted, and the key right
    behind it stays. *)
Lemma purge_first_stale (storage : App.LocalStorage) (userId current : jsstring) :
  NoDup (App.keys storage) ->
  forall pre k post,
    App.keys storage = pre ++ k :: post ->
    Forall (fun x => stale userId current x = false) pre ->
    stale userId current k = true ->
    let purged := App.purgeOlderConversationsForUser storage userId current in
    App.entries purged !! k = None /\ (k ∉ App.keys purged)
    /\ forall k' post', post = k' :: post' ->
         k' ∈ App.keys purged
         /\ App.entries purged !! k' = App.entries storage !! k'.
Proof.
  intros Hnd pre k post Hk Hpre Hs purged. subst purged. rewrite purge_unfold.
  destruct (purge_view storage userId current Hnd (length (App.keys storage))
              (le_n _)) as [Hkeys Hent].
  assert (Hlook : forall k,
            App.entries (App.purgeLoop (length (App.keys storage)) 0 userId
                           current storage) !! k
            = if decide (k ∈ removed userId current (App.keys storage))
              then None else App.entries storage !! k).
  { intros x. rewrite Hent. apply deletes_lookup. }
  destruct (walk_clean userId current pre (k :: post) Hpre) as [Hsv Hrm].
  rewrite Hk in Hnd.
  assert (Hkpre : k ∉ pre).
  { apply NoDup_app in Hnd as (_ & Hd & _). intros Hin.
    apply (Hd _ Hin). by left. }
  assert (Hkpost : k ∉ post).
  { apply NoDup_app in Hnd as (_ & _ & Hd). by apply NoDup_cons in Hd as [? _]. }
  split.
  { rewrite Hlook, Hk, Hrm. cbn [removed]. rewrite Hs.
    rewrite decide_True; [done | by left]. }
  split.
  { rewrite Hkeys, Hk, Hsv. cbn [survivors]. rewrite Hs.
    rewrite elem_of_app. intros [Hin | Hin]; [done |].
    destruct post as [|k' post']; [by apply elem_of_nil in Hin |].
    apply Hkpost. apply elem_of_cons in Hin as [-> | Hin]; [by left |].
    right. destruct (removed_stale userId current post') as (_ & _ & Hs').
    by eapply elem_of_sublist. }
  intros k' post' ->. split.
  { rewrite Hkeys, Hk, Hsv. cbn [survivors]. rewrite Hs.
    apply elem_of_app. right. by left. }
  rewrite Hlook, Hk, Hrm. cbn [removed]. rewrite Hs.
  rewrite decide_False; [done |]. rewrite elem_of_cons. intros [-> | Hin].
  { apply Hkpost. by left. }
  apply NoDup_app in Hnd as (_ & _ & Hd).
  apply NoDup_cons in Hd as [_ Hd]. apply NoDup_cons in Hd as [Hd _].
  apply Hd. destruct (removed_stale userId current post') as (_ & Hs' & _).
  by eapply elem_of_sublist.
Qed.

(** X5.  [purgeOlderConversationsForUser] walks the storage's own key
    array while deleting from it, so the key behind a deleted key is
    never looked at.  For a storage without repeated keys: the keys left
    and the entries dropped are those of that walk; only keys that end
    with [/userId] and differ from the current key are dropped; the
    current key and every key that does not end with [/userId] stay as
    they are; the first such stale key is dropped and the key right
    behind it stays, stale or not; at least half of the stale keys go;
    a storage without stale keys is left as it is; and the loop ends
    within as many steps as the array has keys. *)
Theorem purgeOlderConversationsForUser_lookup
    (storage : App.LocalStorage) (userId current : jsstring) :
  NoDup (App.keys storage) ->
  let purged := App.purgeOlderConversationsForUser storage userId current in
  let gone := removed userId current (App.keys storage) in
  App.keys purged = survivors userId current (App.keys storage)
  /\ (forall k, App.entries purged !! k
                = if decide (k ∈ gone) then None else App.entries storage !! k)
  /\ Forall (fun k => App.endsWith k (lit "/" ++ userId) = true /\ k <> current) gone
  /\ gone `sublist_of` App.keys storage
  /\ App.keys purged `sublist_of` App.keys storage
  /\ App.entries purged !! current = App.entries storage !! current
  /\ (forall k, App.endsWith k (lit "/" ++ userId) = false ->
        App.entries purged !! k = App.entries storage !! k
        /\ (k ∈ App.keys purged <-> k ∈ App.keys storage))
  /\ (forall pre k post,
        App.keys storage = pre ++ k :: post ->
        Forall (fun x => stale userId current x = false) pre ->
        stale userId current k = true ->
        App.entries purged !! k = None /\ (k ∉ App.keys purged)
        /\ forall k' post', post = k' :: post' ->
             k' ∈ App.keys purged
             /\ App.entries purged !! k' = App.entries storage !! k')
  /\ (2 * length (List.filter (stale userId current) (App.keys purged))
      <= length (List.filter (stale userId current) (App.keys storage)))%nat
  /\ (Forall (fun k => stale userId current k = false) (App.keys storage) ->
      purged = storage)
  /\ (forall fuel, (length (App.keys storage) <= fuel)%nat ->
        App.purgeLoop fuel 0 userId current storage = purged).
Proof.
  intros Hnd purged gone. subst purged gone. rewrite purge_unfold.
  destruct (purge_view storage userId current Hnd (length (App.keys storage))
              (le_n _)) as [Hkeys Hent].
  destruct (removed_stale userId current (App.keys storage)) as (Hst & Hsub & Hsub').
  assert (Hlook : forall k,
            App.entries (App.purgeLoop (length (App.keys storage)) 0 userId
                           current storage) !! k
            = if decide (k ∈ removed userId current (App.keys storage))
              then None else App.entries storage !! k).
  { intros k. rewrite Hent. apply deletes_lookup. }
  split; [exact Hkeys |]. split; [exact Hlook |].
  split.
  { eapply Forall_impl; [exact Hst |]. intros k Hk. unfold stale in Hk.
    apply andb_true_iff in Hk as [H1 H2]. split; [done |].
    apply negb_true_iff, bool_decide_eq_false in H2. done. }
  split; [exact Hsub |]. split; [by rewrite Hkeys |].
  split.
  { apply purgeLoop_safe. unfold stale.
    rewrite bool_decide_eq_true_2 by done. apply andb_false_r. }
  split.
  { intros k Hk. apply purgeLoop_safe. unfold stale. by rewrite Hk. }
  split.
  { intros pre k post Hk Hpre Hs.
    pose proof (purge_first_stale storage userId current Hnd pre k post Hk Hpre Hs)
      as H.
    cbv zeta in H. by rewrite purge_unfold in H. }
  split.
  { rewrite Hkeys.
    destruct (walk_count userId current (App.keys storage)) as [H1 H2]. lia. }
  split.
  { intros Hclean.
    destruct (walk_clean userId current (App.keys storage) [] Hclean) as [H1 H2].
    cbn [survivors removed] in H1, H2. rewrite !app_nil_r in H1, H2.
    apply storage_eq.
    - by rewrite Hkeys, H1.
    - by rewrite Hent, H2. }
  intros fuel Hf.
  destruct (purge_view storage userId current Hnd fuel Hf) as [H1 H2].
  apply storage_eq; [by rewrite H1, Hkeys | by rewrite H2, Hent].
Qed.

Lemma purgeOlderConversationsForUser_lookup_witness :
  App.keys (App.purgeOlderConversationsForUser sampleStorage (lit "ann")
              (lit "c3/ann"))
  = survivors (lit "ann") (lit "c3/ann") (App.keys sampleStorage).
Proof.
  apply (purgeOlderConversationsForUser_lookup sampleStorage (lit "ann")
           (lit "c3/ann")).
  apply (bool_decide_unpack (NoDup (App.keys sampleStorage))).
  vm_compute. reflexivity.
Defined.

(** The first conversation is deleted, the second one moves into its
    place and is skipped, the third is the current one. *)
Example purge_skips_after_delete :
  App.keys (App.purgeOlderConversationsForUser sampleStorage (lit "ann")
              (lit "c3/ann"))
  = [lit "c2/ann"; lit "c3/ann"]
  /\ App.entries (App.purgeOlderConversationsForUser sampleStorage (lit "ann")
                    (lit "c3/ann")) !! lit "c2/ann"
     = Some sampleChat
  /\ App.entries (App.purgeOlderConversationsForUser sampleStorage (lit "ann")
                    (lit "c3/ann")) !! lit "c1/ann"
     = None.
Proof. vm_compute. repeat split; reflexivity. Qed.

(** ** Which users a purge reaches *)

Lemma endsWith_suffix (s suf : jsstring) :
  App.endsWith s suf = true <-> suf `suffix_of` s.
Proof.
  split.
  - unfold App.endsWith. intros H. apply andb_true_iff in H as [_ H].
    apply bool_decide_eq_true in H.
    exists (take (length s - length suf) s).
    transitivity (take (length s - length suf) s
                  ++ drop (length s - length suf) s);
      [by rewrite take_drop | by rewrite H].
  - intros [k ->]. apply endsWith_app.
Qed.

Lemma key_suffix (c k u u' : jsstring) :
  k ++ lit "/" ++ u = c ++ lit "/" ++ u' ->
  u = u' \/ (lit "/" ++ u) `suffix_of` u' \/ (lit "/" ++ u') `suffix_of` u.
Proof.
  assert (Hlast : forall (a l b : jsstring),
            a ++ [47] = b ++ l -> l = [] \/ exists l', l = l' ++ [47]).
  { intros a l b E. destruct (decide (l = [])) as [| Hl]; [by left | right].
    destruct (exists_last Hl) as (l' & x & ->). exists l'.
    rewrite app_assoc in E. apply app_inj_tail in E as [_ <-]. done. }
  change (lit "/") with [47]. rewrite !(app_assoc _ [47]).
  intros E. apply List.app_eq_app in E as (l & [[E1 E2] | [E1 E2]]).
  - destruct (Hlast _ _ _ E1) as [-> | (l' & ->)].
    + left. by rewrite E2.
    + right; left. exists l'. by rewrite E2, <- app_assoc.
  - destruct (Hlast _ _ _ E1) as [-> | (l' & ->)].
    + left. by rewrite E2.
    + right; right. exists l'. by rewrite E2, <- app_assoc.
Qed.

Lemma suffix_has (c : Z) (u v : jsstring) : (c :: u) `suffix_of` v -> c ∈ v.
Proof. intros [k ->]. rewrite elem_of_app, elem_of_cons. tauto. Qed.

(** X11.  A purge for one user leaves the conversations of another user
    alone unless one of the two identifiers ends with [/] followed by
    the other; identifiers without [/] are therefore kept apart.  The
    key test is a suffix test, though: for a purge for [userId] every
    conversation of a user whose identifier ends with [/userId] is a
    stale key like the user's own, and it is deleted when it is the
    first stale key of the array. *)
Theorem purge_reach (storage : App.LocalStorage)
    (userId current other conversationId : jsstring) :
  let purged := App.purgeOlderConversationsForUser storage userId current in
  let key := App.conversationKey conversationId other in
  (other <> userId ->
   ~ (lit "/" ++ userId) `suffix_of` other ->
   ~ (lit "/" ++ other) `suffix_of` userId ->
   App.entries purged !! key = App.entries storage !! key
   /\ (key ∈ App.keys purged <-> key ∈ App.keys storage))
  /\ (other <> userId -> 47 ∉ other -> 47 ∉ userId ->
      App.entries purged !! key = App.entries storage !! key
      /\ (key ∈ App.keys purged <-> key ∈ App.keys storage))
  /\ ((lit "/" ++ userId) `suffix_of` other -> key <> current ->
      stale userId current key = true
      /\ (NoDup (App.keys storage) ->
          forall pre post,
            App.keys storage = pre ++ key :: post ->
            Forall (fun x => stale userId current x = false) pre ->
            App.entries purged !! key = None /\ (key ∉ App.keys purged))).
Proof.
  intros purged key. subst purged key.
  assert (H1 : other <> userId ->
               ~ (lit "/" ++ userId) `suffix_of` other ->
               ~ (lit "/" ++ other) `suffix_of` userId ->
               App.entries (App.purgeOlderConversationsForUser storage userId current)
                 !! App.conversationKey conversationId other
               = App.entries storage !! App.conversationKey conversationId other
               /\ (App.conversationKey conversationId other
                     ∈ App.keys (App.purgeOlderConversationsForUser storage userId current)
                   <-> App.conversationKey conversationId other ∈ App.keys storage)).
  { intros Hne Hs1 Hs2. rewrite purge_unfold. apply purgeLoop_safe.
    unfold stale. destruct (App.endsWith _ _) eqn:He; [| done].
    apply endsWith_suffix in He as [k Hk]. unfold App.conversationKey in Hk.
    symmetry in Hk. apply key_suffix in Hk as [-> | [? | ?]]; done. }
  split; [exact H1 |]. split.
  - intros Hne Ho Hu. apply H1; [done | |].
    + intros Hs. by apply suffix_has in Hs.
    + intros Hs. by apply suffix_has in Hs.
  - intros [x ->] Hcur.
    assert (Hs : stale userId current
                   (App.conversationKey conversationId (x ++ lit "/" ++ userId))
                 = true).
    { unfold stale. rewrite bool_decide_eq_false_2 by done.
      unfold App.conversationKey.
      replace (conversationId ++ lit "/" ++ x ++ lit "/" ++ userId)
        with ((conversationId ++ lit "/" ++ x) ++ (lit "/" ++ userId))
        by by rewrite <- !app_assoc.
      by rewrite endsWith_app. }
    split; [exact Hs |]. intros Hnd pre post Hk Hpre.
    destruct (purge_first_stale storage userId current Hnd pre _ post Hk Hpre Hs)
      as (H2 & H3 & _).
    by split.
Qed.

(** A purge for [ann] deletes a conversation of the user [team/ann]
    that it visits, and skips a conversation of [ann] that stands right
    behind a deleted key. *)
Example purge_reaches_other_user :
  let storage :=
    {| App.keys := [lit "c1/team/ann"; lit "c2/ann"; lit "c3/ann"];
       App.entries := {[ lit "c1/team/ann" := sampleChat;
                         lit "c2/ann" := sampleChat;
                         lit "c3/ann" := sampleChat ]} |} in
  App.keys (App.purgeOlderConversationsForUser storage (lit "ann") (lit "c3/ann"))
  = [lit "c2/ann"; lit "c3/ann"].
Proof. vm_compute. reflexivity. Qed.

(** ** The selector as a filter followed by a cut *)

Lemma countParent_nonneg (p : jsstring) (l : list SearchResult) :
  0 <= countParent p l.
Proof.
  induction l as [|it l IH]; cbn [countParent]; [lia |]. destruct (decide _); lia.
Qed.

Lemma limitLoop_underParentCap (items earlier : list SearchResult)
    (maxPerParent maxTotal : Z) (perParent : gmap (list Z) Z)
    (out : list SearchResult) :
  (forall p, default 0 (perParent !! p)
             = Z.min (countParent p earlier) (Z.max 0 maxPerParent)) ->
  Z.of_nat (length out) < Z.max 1 maxTotal ->
  limitLoop items maxPerParent maxTotal perParent out
  = out ++ take (Z.to_nat (Z.max 1 maxTotal - Z.of_nat (length out)))
             (underParentCap maxPerParent earlier items).
Proof.
  revert earlier perParent out.
  induction items as [|it rest IH]; intros earlier perParent out Hinv Hlen;
    cbn [limitLoop underParentCap].
  - by rewrite take_nil, app_nil_r.
  - set (q := parentKey (document it)).
    pose proof (countParent_nonneg q earlier) as Hq.
    pose proof (Hinv q) as Hn.
    destruct (Z.ltb_spec (default 0 (perParent !! q)) maxPerParent) as [Hlt | Hge].
    + destruct (Z.ltb_spec (countParent q earlier) maxPerParent); [| lia].
      cbn [app]. rewrite Z.geb_leb.
      assert (Hlen' : Z.of_nat (length (out ++ [it])) = Z.of_nat (length out) + 1).
      { rewrite length_app. cbn. lia. }
      destruct (Z.leb_spec maxTotal (Z.of_nat (length (out ++ [it])))) as [Hfull | Hroom].
      * replace (Z.to_nat _) with 1%nat by lia. cbn [take]. by rewrite take_0.
      * rewrite (IH (earlier ++ [it])); [| | lia].
        -- rewrite <- app_assoc. cbn [app]. f_equal.
           replace (Z.to_nat (Z.max 1 maxTotal - Z.of_nat (length out)))
             with (S (Z.to_nat (Z.max 1 maxTotal - Z.of_nat (length (out ++ [it])))))
             by lia.
           done.
        -- intros p. rewrite countParent_app. cbn [countParent]. fold q.
           pose proof (Hinv p). pose proof (countParent_nonneg p earlier).
           destruct (decide (q = p)) as [<- | Hne].
           ++ rewrite lookup_insert_eq. cbn. lia.
           ++ rewrite lookup_insert_ne by done. lia.
    + destruct (Z.ltb_spec (countParent q earlier) maxPerParent); [lia |].
      cbn [app]. apply IH; [| done].
      intros p. rewrite countParent_app. cbn [countParent]. fold q.
      pose proof (Hinv p). pose proof (countParent_nonneg p earlier).
      destruct (decide (q = p)) as [<- | Hne]; lia.
Qed.

(** X6.  The selector returns the first [max(1, maxTotal)] of those
    candidates that have fewer than [maxPerParent] earlier candidates of
    their own parent, in their order. *)
Theorem limitByParentAndTotal_filter_then_cut (items : list SearchResult)
    (maxPerParent maxTotal : Z) :
  limitByParentAndTotal items maxPerParent maxTotal
  = take (Z.to_nat (Z.max 1 maxTotal)) (underParentCap maxPerParent [] items).
Proof.
  unfold limitByParentAndTotal.
  rewrite (limitLoop_underParentCap items []).
  - cbn [app length]. f_equal. lia.
  - intros p. rewrite lookup_empty. cbn. lia.
  - cbn. lia.
Qed.

(** ** The aggregator *)

Lemma firstParents_snoc (seen : list jsstring) (l : list SearchResult)
    (it : SearchResult) :
  firstParents seen (l ++ [it])
  = firstParents seen l
      ++ (if decide (parentKey (document it) ∈ seen
                     \/ parentKey (document it) ∈ firstParents seen l)
          then [] else [parentKey (document it)]).
Proof.
  revert seen. induction l as [|x l IH]; intros seen; cbn [firstParents app].
  - destruct (decide (parentKey (document it) ∈ seen)) as [Hin | Hnin].
    + by rewrite decide_True by tauto.
    + rewrite decide_False; [done |]. rewrite elem_of_nil. tauto.
  - destruct (decide (parentKey (document x) ∈ seen)) as [Hx | Hx];
      rewrite IH; [apply f_equal | cbn [app]; do 2 apply f_equal];
      apply decide_ext.
    + tauto.
    + rewrite elem_of_app, list_elem_of_singleton, elem_of_cons. tauto.
Qed.

Lemma firstParents_NoDup (l : list SearchResult) : NoDup (firstParents [] l).
Proof.
  induction l as [|it l IH] using rev_ind; [constructor |].
  rewrite firstParents_snoc. destruct (decide _) as [H | H].
  - by rewrite app_nil_r.
  - apply NoDup_app. split; [done |]. split; [| apply NoDup_singleton].
    intros p Hp Hq. apply list_elem_of_singleton in Hq as ->. tauto.
Qed.

Lemma ofParent_snoc (p : jsstring) (l : list SearchResult) (it : SearchResult) :
  ofParent p (l ++ [it])
  = ofParent p l ++ (if decide (parentKey (document it) = p) then [it] else []).
Proof.
  unfold ofParent. rewrite List.filter_app. cbn [List.filter].
  destruct (decide _) as [H | H].
  - by rewrite bool_decide_eq_true_2.
  - by rewrite bool_decide_eq_false_2.
Qed.

Lemma ofParent_nil_iff (p : jsstring) (l : list SearchResult) :
  ofParent p l = [] <-> p ∉ firstParents [] l.
Proof.
  induction l as [|it l IH] using rev_ind;
    [split; [intros _; apply not_elem_of_nil | done] |].
  rewrite ofParent_snoc, firstParents_snoc, elem_of_app.
  destruct (decide (parentKey (document it) = p)) as [<- | Hne].
  - split; [intros H; by apply app_eq_nil in H as [_ ?] |].
    intros H. exfalso. apply H. destruct (decide _) as [[Hd | Hd] | Hd].
    + by apply elem_of_nil in Hd.
    + by left.
    + right. by apply list_elem_of_singleton.
  - rewrite app_nil_r, IH. split; [| tauto].
    intros H [Hin | Hin]; [done |]. destruct (decide _); [by apply elem_of_nil in Hin |].
    by apply list_elem_of_singleton in Hin.
Qed.

Lemma chunksOf_app (a b : list SearchResult) :
  chunksOf (a ++ b) = chunksOf a ++ chunksOf b.
Proof. unfold chunksOf. by rewrite flat_map_app. Qed.

Lemma find_app {A} (f : A -> bool) (a b : list A) :
  List.find f (a ++ b)
  = match List.find f a with Some x => Some x | None => List.find f b end.
Proof. induction a as [|x a IH]; cbn; [done |]. by destruct (f x). Qed.

(** How the title of a group moves when one more candidate arrives. *)
Lemma titleOf_snoc (l : list SearchResult) (it : SearchResult) :
  l <> [] ->
  titleOf (l ++ [it])
  = if negb (truthy (titleOf l)) && truthy (title (document it))
    then title (document it) else titleOf l.
Proof.
  intros Hl. unfold titleOf. rewrite find_app.
  destruct (List.find _ l) as [x |] eqn:Hfind.
  - apply List.find_some in Hfind as [_ Hx]. by rewrite Hx.
  - cbn [List.find]. destruct l as [|y l]; [done |]. cbn [app].
    assert (Hy : truthy (title (document y)) = false).
    { cbn in Hfind. by destruct (truthy (title (document y))). }
    rewrite Hy. cbn [negb andb].
    by destruct (truthy (title (document it))).
Qed.

Lemma mapGet_tabulate (F : jsstring -> Group) (q : jsstring) (ps : list jsstring) :
  mapGet q (List.map (fun p => (p, F p)) ps)
  = if decide (q ∈ ps) then Some (F q) else None.
Proof.
  induction ps as [|p ps IH]; cbn [List.map mapGet].
  - rewrite decide_False; [done | apply not_elem_of_nil].
  - destruct (decide (q = p)) as [-> | Hne].
    + rewrite decide_True; [done | apply list_elem_of_here].
    + rewrite IH. apply decide_ext. rewrite elem_of_cons. tauto.
Qed.

Lemma mapSet_tabulate (F : jsstring -> Group) (q : jsstring) (g : Group)
    (ps : list jsstring) :
  NoDup ps ->
  mapSet q g (List.map (fun p => (p, F p)) ps)
  = List.map (fun p => (p, if decide (p = q) then g else F p)) ps
      ++ (if decide (q ∈ ps) then [] else [(q, g)]).
Proof.
  induction 1 as [|p ps Hp Hnd IH]; cbn [List.map mapSet app].
  - rewrite decide_False; [done | apply not_elem_of_nil].
  - destruct (decide (q = p)) as [-> | Hne].
    + rewrite decide_True by done.
      rewrite (decide_True (P := p ∈ p :: ps)) by apply list_elem_of_here.
      rewrite app_nil_r. f_equal. apply List.map_ext_in. intros x Hx.
      rewrite decide_False; [done |]. intros ->. apply Hp. by apply list_elem_of_In.
    + rewrite decide_False by done. rewrite IH. cbn [app]. do 2 f_equal.
      apply decide_ext. rewrite elem_of_cons. tauto.
Qed.

Lemma groupStep_tabulate (done : list SearchResult) (it : SearchResult) :
  groupStep (List.map (fun p => (p, groupOf p done)) (firstParents [] done)) it
  = List.map (fun p => (p, groupOf p (done ++ [it]))) (firstParents [] (done ++ [it])).
Proof.
  unfold groupStep. set (q := parentKey (document it)).
  rewrite mapGet_tabulate, mapSet_tabulate by apply firstParents_NoDup.
  rewrite firstParents_snoc. fold q. rewrite List.map_app.
  assert (Hother : forall g, List.map (fun p => (p, if decide (p = q) then g else groupOf p done))
                               (firstParents [] done)
                  = List.map (fun p => (p, if decide (p = q) then g else groupOf p (done ++ [it])))
                               (firstParents [] done)).
  { intros g. apply List.map_ext. intros p. destruct (decide (p = q)); [done |].
    unfold groupOf. rewrite ofParent_snoc. fold q.
    rewrite decide_False by done. by rewrite app_nil_r. }
  assert (Hq : forall g, g = groupOf q (done ++ [it]) ->
            List.map (fun p => (p, if decide (p = q) then g else groupOf p (done ++ [it])))
                     (firstParents [] done)
            = List.map (fun p => (p, groupOf p (done ++ [it]))) (firstParents [] done)).
  { intros g ->. apply List.map_ext. intros p. by destruct (decide (p = q)) as [-> |]. }
  destruct (decide (q ∈ firstParents [] done)) as [Hin | Hnin].
  - rewrite decide_True by tauto. cbn [default List.map]. rewrite !app_nil_r.
    rewrite Hother. apply Hq.
    assert (Hne : ofParent q done <> []) by (rewrite ofParent_nil_iff; tauto).
    unfold groupOf. rewrite ofParent_snoc. fold q. rewrite decide_True by done.
    rewrite chunksOf_app, titleOf_snoc by done.
    generalize (titleOf (ofParent q done)) (chunksOf (ofParent q done)).
    intros T C. unfold chunksOf. cbn.
    destruct (truthy (chunk (document it))); cbn; destruct (truthy T);
      destruct (truthy (title (document it))); cbn; by rewrite ?app_nil_r.
  - rewrite decide_False by (rewrite elem_of_nil; tauto).
    cbn [default List.map]. rewrite Hother.
    assert (Hnil : ofParent q done = []) by (by rewrite ofParent_nil_iff).
    assert (Hg : forall g, g = groupOf q (done ++ [it]) ->
              List.map (fun p => (p, if decide (p = q) then g else groupOf p (done ++ [it])))
                       (firstParents [] done) ++ [(q, g)]
              = List.map (fun p => (p, groupOf p (done ++ [it]))) (firstParents [] done)
                  ++ [(q, groupOf q (done ++ [it]))]).
    { intros g Hgq. by rewrite (Hq g Hgq), Hgq. }
    apply Hg. unfold groupOf. rewrite ofParent_snoc. fold q.
    rewrite decide_True by done. rewrite Hnil. cbn [app].
    unfold titleOf, chunksOf. cbn.
    destruct (truthy (chunk (document it)));
      destruct (truthy (title (document it))) eqn:Ht; cbn; by rewrite ?Ht.
Qed.

Lemma groupByParent_fold (items : list SearchResult) :
  fold_left groupStep items []
  = List.map (fun p => (p, groupOf p items)) (firstParents [] items).
Proof.
  induction items as [|it items IH] using rev_ind; [done |].
  rewrite fold_left_app. cbn [fold_left]. rewrite IH. apply groupStep_tabulate.
Qed.

Lemma firstParents_elem (p : jsstring) (l : list SearchResult) :
  p ∈ firstParents [] l <-> exists it, it ∈ l /\ parentKey (document it) = p.
Proof.
  induction l as [|x l IH] using rev_ind.
  - split; [by intros ?%elem_of_nil | by intros (it & ?%elem_of_nil & _)].
  - rewrite firstParents_snoc, elem_of_app, IH. split.
    + intros [(it & Hit & Hp) | Hin].
      * exists it. split; [apply elem_of_app; by left | done].
      * destruct (decide _); [by apply elem_of_nil in Hin |].
        apply list_elem_of_singleton in Hin as ->. exists x.
        split; [apply elem_of_app; right; by apply list_elem_of_singleton | done].
    + intros (it & Hit & <-). apply elem_of_app in Hit as [Hit | Hit].
      * left. by exists it.
      * apply list_elem_of_singleton in Hit as ->.
        destruct (decide _) as [[Hd | Hd] | Hd].
        -- by apply elem_of_nil in Hd.
        -- left. by apply IH.
        -- right. by apply list_elem_of_singleton.
Qed.

(** X7.  The aggregator returns one group per parent key, in the order
    in which the parents first appear; a group holds the non-empty chunk
    texts of its parent's candidates in their order, and as its title the
    first non-empty title among them (without one, the title field of the
    parent's first candidate). *)
Theorem groupByParent_groups (items : list SearchResult) :
  groupByParent items
  = List.map (fun p => groupOf p items) (firstParents [] items)
  /\ NoDup (firstParents [] items)
  /\ (forall p, p ∈ firstParents [] items
                <-> exists it, it ∈ items /\ parentKey (document it) = p).
Proof.
  split.
  { unfold groupByParent. rewrite groupByParent_fold, List.map_map. done. }
  split; [apply firstParents_NoDup | intros p; apply firstParents_elem].
Qed.

(** ** The caps of the selection reach the groups and the blocks *)

Lemma firstParents_length (l : list SearchResult) :
  (length (firstParents [] l) <= length l)%nat.
Proof.
  induction l as [|it l IH] using rev_ind; [done |].
  rewrite firstParents_snoc, !length_app. destruct (decide _); cbn; lia.
Qed.

Lemma ofParent_length (p : jsstring) (l : list SearchResult) :
  Z.of_nat (length (ofParent p l)) = countParent p l.
Proof.
  induction l as [|it l IH]; cbn [ofParent List.filter countParent]; [done |].
  fold (ofParent p l). destruct (decide _) as [H | H].
  - rewrite bool_decide_eq_true_2 by done. cbn [length]. lia.
  - rewrite bool_decide_eq_false_2 by done. lia.
Qed.

Lemma chunksOf_length (l : list SearchResult) :
  (length (chunksOf l) <= length l)%nat.
Proof.
  induction l as [|it l IH]; cbn; [done |].
  fold (chunksOf l). destruct (truthy _); cbn; lia.
Qed.

Lemma groupBlock_length (g : Group) : (length (groupBlock g) <= 1)%nat.
Proof. unfold groupBlock. destruct (0 <? _); cbn; lia. Qed.

Lemma flat_map_groupBlock_length (groups : list Group) :
  (length (flat_map groupBlock groups) <= length groups)%nat.
Proof.
  induction groups as [|g groups IH]; cbn [flat_map]; [done |].
  rewrite length_app. pose proof (groupBlock_length g). cbn [length]. lia.
Qed.

(** X8.  Whatever the candidates, the groups built from the selection are
    at most [max(1, maxTotalAfterFusion)], each holds at most
    [max(0, maxPerParent)] chunks, and they yield at most
    [max(1, maxTotalAfterFusion)] context blocks. *)
Theorem selection_caps_bound_groups (items : list SearchResult)
    (maxPerParent maxTotal : Z) :
  let groups := groupByParent (limitByParentAndTotal items maxPerParent maxTotal) in
  Z.of_nat (length groups) <= Z.max 1 maxTotal
  /\ Forall (fun g => Z.of_nat (length (g_chunks g)) <= Z.max 0 maxPerParent) groups
  /\ Z.of_nat (length (flat_map groupBlock groups)) <= Z.max 1 maxTotal.
Proof.
  intros groups. subst groups. unfold groupByParent, limitByParentAndTotal.
  destruct (limitLoop_spec items maxPerParent maxTotal ∅ [])
    as (picked & -> & _ & Hsize & Hcount).
  { intros p. rewrite lookup_empty. cbn. lia. }
  { cbn. lia. }
  cbn [app] in *. rewrite groupByParent_fold, List.map_map. cbn [snd].
  assert (Hlen : Z.of_nat (length (List.map (fun p => groupOf p picked)
                                            (firstParents [] picked)))
                 <= Z.max 1 maxTotal).
  { rewrite List.length_map. pose proof (firstParents_length picked). lia. }
  split; [exact Hlen |]. split.
  - apply List.Forall_map. apply Forall_forall. intros p _. cbn [groupOf g_chunks].
    pose proof (chunksOf_length (ofParent p picked)).
    pose proof (ofParent_length p picked). specialize (Hcount p). lia.
  - pose proof (flat_map_groupBlock_length
                  (List.map (fun p => groupOf p picked) (firstParents [] picked))).
    lia.
Qed.

(** ** The normalizer touches white space only *)

Lemma ink_app (a b : jsstring) : ink (a ++ b) = ink a ++ ink b.
Proof. apply List.filter_app. Qed.

Lemma ink_space (c : Z) (s : jsstring) : isSpace c = true -> ink (c :: s) = ink s.
Proof. intros H. unfold ink. cbn. by rewrite H. Qed.

Lemma ink_spaces (t : jsstring) :
  Forall (fun c => isSpace c = true) t -> ink t = [].
Proof. induction 1 as [|c t Hc _ IH]; [done |]. by rewrite ink_space. Qed.

Lemma ink_removeZeroWidth (s : jsstring) : ink (removeZeroWidth s) = ink s.
Proof.
  induction s as [|c s IH]; [done |]. unfold ink, removeZeroWidth in *. cbn.
  destruct (isZeroWidth c) eqn:E; cbn; rewrite ?E, IH; [by rewrite andb_false_r | done].
Qed.

Lemma ink_normalizeLineEndings (s : jsstring) :
  ink (normalizeLineEndings s) = ink s.
Proof.
  pattern s, (normalizeLineEndings s). apply normalizeLineEndings_cases.
  - done.
  - intros t r IH. by rewrite !ink_space.
  - intros t r IH. by rewrite !ink_space.
  - intros c t r _ IH. unfold ink in *. cbn. by rewrite IH.
Qed.

Lemma ink_lstrip (s : jsstring) : ink (lstrip isSpace s) = ink s.
Proof.
  induction s as [|c s IH]; cbn [lstrip]; [done |].
  destruct (isSpace c) eqn:E; [| done]. by rewrite ink_space.
Qed.

Lemma ink_rstrip (s : jsstring) : ink (rstrip isSpace s) = ink s.
Proof.
  destruct (rstrip_prefix isSpace s) as (t & Hs & Ht).
  rewrite Hs at 2. by rewrite ink_app, (ink_spaces t), app_nil_r.
Qed.

Lemma ink_trim (s : jsstring) : ink (trim s) = ink s.
Proof. unfold trim. by rewrite ink_rstrip, ink_lstrip. Qed.

Lemma ink_collapseRuns (f : Z -> bool) (s : jsstring) :
  (forall c, f c = true -> isSpace c = true) ->
  ink (collapseRuns f s) = ink s.
Proof.
  intros Hf. induction s as [|c s IH]; cbn [collapseRuns]; [done |].
  destruct (f c) eqn:E.
  - rewrite (ink_space c) by auto. destruct s as [|d s]; [done |].
    destruct (f d); [done |]. by rewrite ink_space.
  - unfold ink in *. cbn. by rewrite IH.
Qed.

Lemma ink_compactLine (l : jsstring) : ink (compactLine l) = ink l.
Proof.
  unfold compactLine. rewrite ink_trim. apply ink_collapseRuns.
  intros c. unfold isBlank. rewrite orb_true_iff, !Z.eqb_eq. by intros [-> | ->].
Qed.

Lemma ink_join (ls : list jsstring) : ink (join [LF] ls) = flat_map ink ls.
Proof.
  induction ls as [|l ls IH]; [done |].
  destruct ls as [|l' ls]; [cbn; by rewrite app_nil_r |].
  rewrite join_cons by done. rewrite !ink_app, IH. by cbn.
Qed.

Lemma ink_collapseNewlinesFrom (k : nat) (s : jsstring) :
  ink (collapseNewlinesFrom k s) = ink s.
Proof.
  revert k. induction s as [|c s IH]; intros k; cbn [collapseNewlinesFrom]; [done |].
  destruct (Z.eqb_spec c LF) as [-> | Hne].
  - rewrite (ink_space LF s) by done.
    destruct k as [|[|k]]; rewrite ?ink_space by done; apply IH.
  - unfold ink in *. cbn. by rewrite IH.
Qed.

Lemma ink_nil_iff (s : jsstring) :
  ink s = [] <-> Forall (fun c => isSpace c || isZeroWidth c = true) s.
Proof.
  induction s as [|c s IH]; [by split |]. unfold ink in *. cbn.
  rewrite Forall_cons, <- IH.
  destruct (isSpace c), (isZeroWidth c); cbn; split; try tauto; try done.
  all: by intros [? _].
Qed.

(** X9.  The normalizer changes white space and the units of its
    zero-width class only: all other units come out unchanged and in the
    same order.  Hence its result is empty exactly when the text holds
    nothing but white space and units of that class. *)
Theorem compactWhitespace_keeps_ink (s : jsstring) :
  ink (compactWhitespace s) = ink s
  /\ (compactWhitespace s = []
      <-> Forall (fun c => isSpace c || isZeroWidth c = true) s).
Proof.
  assert (Hink : ink (compactWhitespace s) = ink s).
  { destruct s as [|c0 s0]; [done |].
    unfold compactWhitespace. set (s := c0 :: s0). clearbody s.
    unfold collapseNewlines.
    rewrite ink_trim, ink_collapseNewlinesFrom, ink_join.
    rewrite List.flat_map_concat_map, List.map_map.
    rewrite (List.map_ext _ ink) by apply ink_compactLine.
    rewrite <- List.flat_map_concat_map, <- ink_join, join_split.
    by rewrite ink_normalizeLineEndings, ink_removeZeroWidth. }
  split; [exact Hink |]. rewrite <- ink_nil_iff, <- Hink. split; [by intros -> |].
  intros Hnil. pose proof (compactWhitespace_Compact s) as (Hu & _ & _ & Hh & _).
  destruct (compactWhitespace s) as [|c r]; [done |]. exfalso.
  apply Forall_cons in Hu as [(Hzw & _) _]. cbn in Hh.
  unfold ink in Hnil. cbn in Hnil. by rewrite Hh, Hzw in Hnil.
Qed.

(** ** The normalizer never lengthens a text *)

Lemma lstrip_length (f : Z -> bool) (s : jsstring) :
  (length (lstrip f s) <= length s)%nat.
Proof. induction s as [|c s IH]; cbn; [done |]. destruct (f c); cbn; lia. Qed.

Lemma rstrip_length (f : Z -> bool) (s : jsstring) :
  (length (rstrip f s) <= length s)%nat.
Proof. pose proof (rstrip_len f s). unfold len in *. lia. Qed.

Lemma trim_length (s : jsstring) : (length (trim s) <= length s)%nat.
Proof.
  unfold trim. pose proof (rstrip_length isSpace (lstrip isSpace s)).
  pose proof (lstrip_length isSpace s). lia.
Qed.

Lemma collapseRuns_length (f : Z -> bool) (s : jsstring) :
  (length (collapseRuns f s) <= length s)%nat.
Proof.
  induction s as [|c s IH]; cbn [collapseRuns]; [done |].
  destruct (f c); [| cbn; lia].
  destruct s as [|d s]; [done |]. destruct (f d); cbn [length] in *; lia.
Qed.

Lemma normalizeLineEndings_length (s : jsstring) :
  (length (normalizeLineEndings s) <= length s)%nat.
Proof.
  pattern s, (normalizeLineEndings s). apply normalizeLineEndings_cases;
    intros; cbn [length]; lia.
Qed.

Lemma collapseNewlinesFrom_length (k : nat) (s : jsstring) :
  (length (collapseNewlinesFrom k s) <= length s)%nat.
Proof.
  revert k. induction s as [|c s IH]; intros k; cbn [collapseNewlinesFrom]; [done |].
  destruct (c =? LF).
  - destruct k as [|[|k]]; cbn [length]; [specialize (IH 1%nat) | specialize (IH 2%nat)
                                         | specialize (IH (S (S k)))]; lia.
  - cbn [length]. specialize (IH 0%nat). lia.
Qed.

Lemma join_map_length (f : jsstring -> jsstring) (ls : list jsstring) :
  (forall l, (length (f l) <= length l)%nat) ->
  (length (join [LF] (List.map f ls)) <= length (join [LF] ls))%nat.
Proof.
  intros Hf. induction ls as [|l ls IH]; [done |].
  destruct ls as [|l' ls]; [apply Hf |].
  cbn [List.map]. rewrite (join_cons [LF] l (l' :: ls)) by done.
  rewrite (join_cons [LF] (f l)) by done. rewrite !length_app.
  cbn [List.map] in IH. pose proof (Hf l). cbn [length]. lia.
Qed.

(** X10.  The normalized text is never longer than the text, so
    normalizing never raises the token estimate. *)
Theorem compactWhitespace_never_longer (s : jsstring) :
  len (compactWhitespace s) <= len s
  /\ estimateTokens (compactWhitespace s) <= estimateTokens s.
Proof.
  assert (H : len (compactWhitespace s) <= len s).
  { unfold len. destruct s as [|c0 s0]; [done |].
    unfold compactWhitespace. set (s := c0 :: s0). clearbody s.
    unfold collapseNewlines.
    pose proof (trim_length
      (collapseNewlinesFrom 0 (join [LF] (List.map compactLine
         (split LF (normalizeLineEndings (removeZeroWidth s))))))) as H1.
    pose proof (collapseNewlinesFrom_length 0
      (join [LF] (List.map compactLine
         (split LF (normalizeLineEndings (removeZeroWidth s)))))) as H2.
    pose proof (join_map_length compactLine
      (split LF (normalizeLineEndings (removeZeroWidth s)))) as H3.
    rewrite join_split in H3.
    pose proof (normalizeLineEndings_length (removeZeroWidth s)) as H4.
    pose proof (List.filter_length_le (fun c => negb (isZeroWidth c)) s) as H5.
    fold (removeZeroWidth s) in H5.
    assert (forall l, (length (compactLine l) <= length l)%nat) as Hl.
    { intros l. unfold compactLine.
      pose proof (trim_length (collapseRuns isBlank l)).
      pose proof (collapseRuns_length isBlank l). lia. }
    specialize (H3 Hl). lia. }
  split; [exact H |]. unfold estimateTokens.
  apply Z.div_le_mono; lia.
Qed.

(** ** Fingerprints *)

Lemma lit_inj (s t : string) : lit s = lit t -> s = t.
Proof.
  unfold lit. intros H.
  rewrite <- (string_of_list_ascii_of_string s), <- (string_of_list_ascii_of_string t).
  f_equal. revert H.
  generalize (list_ascii_of_string s) (list_ascii_of_string t).
  induction l as [|a l IH]; intros [|b l']; cbn; try done.
  intros [= Hab Hl]. f_equal; [| by apply IH].
  apply Nat2Z.inj in Hab || apply N2Z.inj in Hab.
  rewrite <- (ascii_N_embedding a), <- (ascii_N_embedding b). by rewrite Hab.
Qed.

Lemma toString16_inj (a b : Z) : toString16 a = toString16 b -> a = b.
Proof.
  unfold toString16. intros H%lit_inj.
  assert (Hnn : forall z, Z.to_hex_int z <> Hexadecimal.Pos Hexadecimal.Nil
                          /\ Z.to_hex_int z <> Hexadecimal.Neg Hexadecimal.Nil).
  { intros [|p|p]; cbn; split; try done; intros [= Hp];
      by apply HexadecimalPos.Unsigned.to_uint_nonnil in Hp. }
  apply HexadecimalZ.to_int_inj.
  assert (E : Some (Z.to_hex_int a) = Some (Z.to_hex_int b)); [| congruence].
  rewrite <- (NilZero.isi (Z.to_hex_int a)), <- (NilZero.isi (Z.to_hex_int b));
    try apply Hnn.
  by rewrite H.
Qed.

Lemma toInt32_range (x : Z) : - 2 ^ 31 <= toInt32 x < 2 ^ 31.
Proof.
  unfold toInt32. pose proof (Z.mod_pos_bound (x + 2 ^ 31) (2 ^ 32) ltac:(lia)). lia.
Qed.

Lemma toInt32_congr (x y : Z) :
  toInt32 x = toInt32 y <-> (x - y) mod 2 ^ 32 = 0.
Proof.
  unfold toInt32.
  replace (x - y) with ((x + 2 ^ 31) - (y + 2 ^ 31)) by lia.
  pose proof (Z.cong_iff_0 (x + 2 ^ 31) (y + 2 ^ 31) (2 ^ 32)) as H.
  split; [intros E; apply H; lia | intros E; apply H in E; lia].
Qed.

Lemma toInt32_step (h c : Z) : toInt32 (toInt32 h * 31 + c) = toInt32 (h * 31 + c).
Proof.
  apply toInt32_congr.
  replace (toInt32 h * 31 + c - (h * 31 + c)) with ((toInt32 h - h) * 31) by lia.
  assert (H : (toInt32 h - h) mod 2 ^ 32 = 0).
  { unfold toInt32.
    replace ((h + 2 ^ 31) mod 2 ^ 32 - 2 ^ 31 - h)
      with ((h + 2 ^ 31) mod 2 ^ 32 - (h + 2 ^ 31)) by lia.
    apply (Z.cong_iff_0 ((h + 2 ^ 31) mod 2 ^ 32) (h + 2 ^ 31) (2 ^ 32)).
    by rewrite Z.mod_mod by lia. }
  apply Z.mod_divide in H; [| lia]. apply Z.mod_divide; [lia |].
  by apply Z.divide_mul_l.
Qed.

Lemma hash32_poly_from (s : jsstring) (h : Z) :
  fold_left (fun h c => toInt32 (h * 31 + c)) s (toInt32 h)
  = toInt32 (fold_left (fun h c => h * 31 + c) s h).
Proof.
  revert h. induction s as [|c s IH]; intros h; cbn [fold_left]; [done |].
  by rewrite toInt32_step, IH.
Qed.

(** X12.  The fingerprint is the base-16 text of a signed 32-bit
    integer and loses nothing of it: two texts have the same fingerprint
    exactly when their 32-bit hashes are equal.  Reducing to 32 bits
    after every unit gives the same hash as reducing the whole
    polynomial in 31 once, so two texts collide exactly when their
    polynomials differ by a multiple of 2^32. *)
Theorem hashString_collisions (a b : jsstring) :
  hashString a = toString16 (hash32 a)
  /\ - 2 ^ 31 <= hash32 a < 2 ^ 31
  /\ hash32 a = toInt32 (hashPoly a)
  /\ (hashString a = hashString b <-> hash32 a = hash32 b)
  /\ (hashString a = hashString b <-> (hashPoly a - hashPoly b) mod 2 ^ 32 = 0).
Proof.
  assert (Hpoly : forall s, hash32 s = toInt32 (hashPoly s)).
  { intros s. unfold hash32, hashPoly. by rewrite <- hash32_poly_from. }
  assert (Hiff : hashString a = hashString b <-> hash32 a = hash32 b).
  { split; [apply toString16_inj |]. unfold hashString. fold (hash32 a) (hash32 b).
    by intros ->. }
  split; [done |]. split; [rewrite Hpoly; apply toInt32_range |].
  split; [apply Hpoly |]. split; [exact Hiff |].
  by rewrite Hiff, !Hpoly, toInt32_congr.
Qed.

Example hashString_collision_sample :
  hashPoly (lit "Aa") = 2112 /\ hashPoly (lit "BB") = 2112
  /\ hashString (lit "polygenelubricants") = hashString (lit "GydZG_")
  /\ hashString (lit "polygenelubricants") = lit "-80000000".
Proof. vm_compute. repeat split; reflexivity. Qed.

(** ** The deduper is a projection *)

Lemma dedupeByHash_fixed (chunks : list jsstring) :
  NoDup (hashString <$> chunks) -> dedupeByHash chunks = chunks.
Proof.
  induction chunks as [|c chunks IH] using rev_ind; [done |].
  rewrite fmap_app, NoDup_app. intros (Hnd & Hc & _).
  rewrite dedupeByHash_snoc, IH by done.
  rewrite decide_False; [done |]. intros Hin. apply (Hc _ Hin).
  apply list_elem_of_here.
Qed.

(** X13.  Deduplicating twice is deduplicating once; a list of
    fragments with pairwise different fingerprints is returned as it is,
    and the result is never longer than the list. *)
Theorem dedupeByHash_projection (chunks : list jsstring) :
  dedupeByHash (dedupeByHash chunks) = dedupeByHash chunks
  /\ (NoDup (hashString <$> chunks) -> dedupeByHash chunks = chunks)
  /\ (length (dedupeByHash chunks) <= length chunks)%nat.
Proof.
  split; [apply dedupeByHash_fixed, dedupeByHash_fingerprints_NoDup |].
  split; [apply dedupeByHash_fixed |].
  apply sublist_length, dedupeByHash_sublist.
Qed.

(** ** Escaping the citation *)

(** X14.  The escaped citation never contains a double quote; a citation
    without double quotes is left as it is, so escaping twice is escaping
    once; and escaping never shortens. *)
Theorem escapeAttr_no_quote (v : jsstring) :
  Forall (fun c => c <> QUOTE) (escapeAttr v)
  /\ (Forall (fun c => c <> QUOTE) v -> escapeAttr v = v)
  /\ escapeAttr (escapeAttr v) = escapeAttr v
  /\ len v <= len (escapeAttr v).
Proof.
  assert (H1 : forall w, Forall (fun c => c <> QUOTE) (escapeAttr w)).
  { intros w. induction w as [|c w IH]; cbn [escapeAttr flat_map]; [constructor |].
    apply Forall_app. split; [| exact IH].
    destruct (Z.eqb_spec c QUOTE); [by repeat constructor |]. by repeat constructor. }
  assert (H2 : forall w, Forall (fun c => c <> QUOTE) w -> escapeAttr w = w).
  { induction 1 as [|c w Hc _ IH]; cbn [escapeAttr flat_map]; [done |].
    fold (escapeAttr w). rewrite IH. by destruct (Z.eqb_spec c QUOTE). }
  split; [apply H1 |]. split; [apply H2 |]. split; [apply H2, H1 |].
  unfold len. induction v as [|c v IH]; cbn [escapeAttr flat_map]; [done |].
  fold (escapeAttr v). rewrite length_app.
  destruct (c =? QUOTE);
    [change (length (lit "&quot;")) with 6%nat |]; cbn [length] in *; lia.
Qed.

Lemma escapeAttr_Forall (P : Z -> Prop) (v : jsstring) :
  Forall P (lit "&quot;") -> Forall P v -> Forall P (escapeAttr v).
Proof.
  intros Hq. induction 1 as [|c v Hc _ IH]; cbn [escapeAttr flat_map]; [constructor |].
  apply Forall_app. split; [| exact IH].
  destruct (c =? QUOTE); [done | by repeat constructor].
Qed.

(** ** Positions of the delimiters in a formatted block *)

Lemma indexOfFrom_unit (x : Z) (a b : jsstring) (i : Z) :
  Forall (fun c => c <> x) a ->
  indexOfFrom [x] (a ++ x :: b) i = i + len a.
Proof.
  intros Ha. revert i. induction Ha as [|c a Hc _ IH]; intros i; cbn [app indexOfFrom].
  - cbn. rewrite Z.eqb_refl. unfold len. cbn. lia.
  - cbn [startsWith]. destruct (Z.eqb_spec x c); [congruence |]. cbn [andb].
    rewrite IH. unfold len. cbn [length]. lia.
Qed.

Lemma startsWith_refl (p b : jsstring) : startsWith p (p ++ b) = true.
Proof. induction p as [|c p IH]; cbn; [done |]. by rewrite Z.eqb_refl. Qed.

Lemma startsWith_short (p s : jsstring) :
  (length s < length p)%nat -> startsWith p s = false.
Proof.
  revert s. induction p as [|c p IH]; intros s H.
  - cbn in H. lia.
  - destruct s as [|d s]; cbn; [done |].
    rewrite IH by (cbn in H; lia). apply andb_false_r.
Qed.

Lemma lastIndexOfFrom_short (p s : jsstring) (i best : Z) :
  (length s < length p)%nat -> lastIndexOfFrom p s i best = best.
Proof.
  revert i best. induction s as [|c s IH]; intros i best H; cbn [lastIndexOfFrom].
  - by rewrite startsWith_short.
  - rewrite startsWith_short by done. apply IH. cbn in H. lia.
Qed.

Lemma lastIndexOfFrom_suffix (p a : jsstring) (i best : Z) :
  p <> [] -> lastIndexOfFrom p (a ++ p) i best = i + len a.
Proof.
  intros Hp. revert i best. induction a as [|c a IH]; intros i best; cbn [app].
  - destruct p as [|c p]; [done |]. cbn [lastIndexOfFrom].
    pose proof (startsWith_refl (c :: p) []) as Hs. rewrite app_nil_r in Hs.
    rewrite Hs. rewrite lastIndexOfFrom_short by (cbn; lia).
    unfold len. cbn. lia.
  - cbn [lastIndexOfFrom]. rewrite IH. unfold len. cbn [length]. lia.
Qed.

Lemma slice_prefix (a b : jsstring) : slice (a ++ b) 0 (len a) = a.
Proof.
  rewrite slice_0 by apply len_nonneg. unfold len. rewrite Nat2Z.id.
  apply take_app_length.
Qed.

Lemma slice_middle (a b c : jsstring) :
  slice (a ++ b ++ c) (len a) (len a + len b) = b.
Proof.
  unfold slice, clampIndex. rewrite !len_app.
  pose proof (len_nonneg a). pose proof (len_nonneg b). pose proof (len_nonneg c).
  destruct (Z.ltb_spec (len a) 0); [lia |].
  destruct (Z.ltb_spec (len a + len b) 0); [lia |].
  rewrite !Z.min_l by lia.
  replace (Z.to_nat (len a + len b - len a)) with (length b) by (unfold len; lia).
  replace (Z.to_nat (len a)) with (length a) by (unfold len; lia).
  rewrite drop_app_length. apply take_app_length.
Qed.

Lemma sliceFrom_suffix (a b : jsstring) : sliceFrom (a ++ b) (len a) = b.
Proof.
  unfold sliceFrom. rewrite len_app.
  pose proof (slice_middle a b []) as H. by rewrite app_nil_r in H.
Qed.

(** X15.  A block that the formatter wrote for a citation without [>]
    is split by the stitcher exactly at its tags: the first [>] closes
    the opening tag, the last closing tag is the one at the end, and a
    trimmed block is the opening tag, the trimmed inner text and the
    closing tag. *)
Theorem trimPiece_keeps_tags (content citation : jsstring) (remaining : Z) :
  compactWhitespace content <> [] ->
  Forall (fun c => c <> 62) citation ->
  let block := formatDocument content citation in
  let inner := [LF] ++ compactWhitespace content ++ [LF] in
  block = openTag citation ++ inner ++ closeTag
  /\ indexOf block (lit ">") = len (openTag citation) - 1
  /\ lastIndexOf block closeTag = len block - len closeTag
  /\ trimPiece block remaining
     = openTag citation ++ safeTrimToChars inner (remaining * 4) ++ closeTag.
Proof.
  intros Hne Hcit block inner.
  assert (Hblock : block = openTag citation ++ inner ++ closeTag).
  { unfold block, formatDocument, openTag, inner.
    destruct (compactWhitespace content); [done |].
    by rewrite <- !app_assoc. }
  set (pre := lit "<context source=" ++ [QUOTE] ++ escapeAttr citation ++ [QUOTE]).
  assert (Hopen : openTag citation = pre ++ [62]).
  { unfold openTag, pre. by rewrite <- !app_assoc. }
  assert (Hpre : Forall (fun c => c <> 62) pre).
  { unfold pre. rewrite !Forall_app. repeat split.
    - by vm_compute; repeat constructor.
    - by repeat constructor.
    - apply escapeAttr_Forall; [by vm_compute; repeat constructor | done].
    - by repeat constructor. }
  assert (Hidx : indexOf block (lit ">") = len (openTag citation) - 1).
  { rewrite Hblock, Hopen. unfold indexOf. rewrite <- app_assoc. cbn [app].
    change (lit ">") with [62]. rewrite indexOfFrom_unit by done.
    rewrite len_app. unfold len at 3. cbn. lia. }
  assert (Hlast : lastIndexOf block closeTag = len block - len closeTag).
  { rewrite Hblock. unfold lastIndexOf. rewrite !app_assoc.
    rewrite lastIndexOfFrom_suffix by done. rewrite (len_app _ closeTag). lia. }
  split; [exact Hblock |]. split; [exact Hidx |]. split; [exact Hlast |].
  unfold trimPiece. rewrite Hidx, Hlast.
  pose proof (len_nonneg pre). pose proof (len_nonneg inner).
  assert (Hlo : len (openTag citation) = len pre + 1).
  { rewrite Hopen, len_app. unfold len at 2. cbn. lia. }
  assert (Hlb : len block = len (openTag citation) + len inner + len closeTag).
  { rewrite Hblock, !len_app. lia. }
  destruct (Z.eqb_spec (len (openTag citation) - 1) (-1)); [lia |].
  destruct (Z.eqb_spec (len block - len closeTag) (-1)); [lia |].
  cbn [negb andb].
  replace (len (openTag citation) - 1 + 1) with (len (openTag citation)) by lia.
  replace (len block - len closeTag)
    with (len (openTag citation) + len inner) by lia.
  assert (Htail : sliceFrom (openTag citation ++ inner ++ closeTag)
                            (len (openTag citation) + len inner) = closeTag).
  { rewrite app_assoc, <- len_app. apply sliceFrom_suffix. }
  rewrite Hblock. by rewrite slice_prefix, slice_middle, Htail.
Qed.

Lemma trimPiece_keeps_tags_witness :
  trimPiece (formatDocument (lit "xyzw") (lit "a")) 1
  = openTag (lit "a")
      ++ safeTrimToChars ([LF] ++ compactWhitespace (lit "xyzw") ++ [LF]) (1 * 4)
      ++ closeTag.
Proof.
  pose proof (trimPiece_keeps_tags (lit "xyzw") (lit "a") 1) as H.
  cbv zeta in H. apply H.
  - by vm_compute.
  - vm_compute. by repeat constructor.
Defined.

(** With a [>] in the citation the first [>] lies inside the attribute,
    and the cut falls there. *)
Example trimPiece_citation_with_gt :
  trimPiece (formatDocument (lit "alpha beta gamma delta") (lit "a>b")) 2
  = lit "<context source=" ++ [QUOTE] ++ lit "a>" ++ lit "b" ++ [QUOTE] ++ lit ">"
      ++ [LF] ++ lit "alp" ++ [ELLIPSIS] ++ closeTag.
Proof. vm_compute. reflexivity. Qed.

(** ** How far the stitched string can exceed the budget *)

Lemma sumLen_app (a b : list jsstring) : sumLen (a ++ b) = sumLen a + sumLen b.
Proof. induction a as [|p a IH]; cbn [app sumLen]; lia. Qed.

Lemma join_len (ls : list jsstring) :
  len (join [LF] ls) <= sumLen ls + Z.of_nat (length ls).
Proof.
  induction ls as [|l ls IH]; [done |].
  destruct ls as [|l' ls].
  - cbn [join sumLen length]. lia.
  - rewrite join_cons by done. rewrite !len_app. cbn [sumLen length] in *.
    unfold len at 2. cbn [length]. lia.
Qed.

Lemma safeTrimToChars_len (s : jsstring) (n : Z) :
  1 <= n -> len (safeTrimToChars s n) <= n.
Proof.
  intros Hn. destruct (Z.le_gt_cases (len s) n) as [Hle | Hgt].
  - by rewrite safeTrimToChars_short.
  - destruct (safeTrimToChars_long s n Hn ltac:(lia)) as (kept & _ & _ & H). exact H.
Qed.

Lemma wrapperOf_nonneg (p : jsstring) : 0 <= wrapperOf p.
Proof.
  unfold wrapperOf. destruct (_ && _); [| lia].
  pose proof (len_nonneg (slice p 0 (indexOf p (lit ">") + 1))).
  pose proof (len_nonneg (sliceFrom p (lastIndexOf p closeTag))). lia.
Qed.

Lemma maxWrapper_nonneg (pieces : list jsstring) : 0 <= maxWrapper pieces.
Proof.
  induction pieces as [|p ps IH]; unfold maxWrapper; cbn [foldr]; [lia |].
  fold (maxWrapper ps). lia.
Qed.

Lemma trimPiece_len (p : jsstring) (r : Z) :
  1 <= r -> len (trimPiece p r) <= 4 * r + wrapperOf p.
Proof.
  intros Hr. unfold trimPiece, wrapperOf.
  destruct (_ && _).
  - rewrite !len_app.
    pose proof (safeTrimToChars_len
      (slice p (indexOf p (lit ">") + 1) (lastIndexOf p closeTag)) (r * 4) ltac:(lia)).
    lia.
  - pose proof (safeTrimToChars_len p (r * 4) ltac:(lia)). lia.
Qed.

Lemma stitchLoop_len (pieces out : list jsstring) (maxTokens used : Z) :
  sumLen out <= 4 * used -> used <= maxTokens ->
  sumLen (stitchLoop pieces maxTokens out used) <= 4 * maxTokens + maxWrapper pieces
  /\ (length (stitchLoop pieces maxTokens out used) <= length out + length pieces)%nat.
Proof.
  revert out used.
  induction pieces as [|p rest IH]; intros out used Hout Hused;
    unfold maxWrapper; cbn [stitchLoop foldr].
  - split; [lia | lia].
  - fold (maxWrapper rest). pose proof (maxWrapper_nonneg rest).
    pose proof (wrapperOf_nonneg p).
    destruct (Z.leb_spec (used + estimateTokens p) maxTokens) as [Hfit | Hunfit].
    + destruct (IH (out ++ [p]) (used + estimateTokens p)) as [H1 H2]; [| done |].
      * rewrite sumLen_app. cbn [sumLen].
        pose proof (proj1 (estimateTokens_le p (estimateTokens p)) ltac:(lia)). lia.
      * split; [lia |]. rewrite length_app in H2. cbn [length] in *. lia.
    + destruct (Z.leb_spec (Z.max 0 (maxTokens - used)) 0).
      * split; [lia | cbn [length]; lia].
      * rewrite Z.max_r by lia. rewrite sumLen_app, length_app. cbn [sumLen length].
        pose proof (trimPiece_len p (maxTokens - used) ltac:(lia)).
        split; lia.
Qed.

(** X16.  With a budget of at least 0 the stitched string has at most
    [4 * maxTokens] units plus one per piece (the separators) plus the
    largest wrapper among the pieces (head and tail that are kept around
    a trimmed inner text); its token estimate exceeds the budget by at
    most a quarter of that excess, rounded up. *)
Theorem stitchWithTokenBudget_excess (pieces : list jsstring) (maxTokens : Z) :
  0 <= maxTokens ->
  len (stitchWithTokenBudget pieces maxTokens)
  <= 4 * maxTokens + Z.of_nat (length pieces) + maxWrapper pieces
  /\ estimateTokens (stitchWithTokenBudget pieces maxTokens)
     <= maxTokens + (Z.of_nat (length pieces) + maxWrapper pieces + 3) / 4.
Proof.
  intros Hmax. unfold stitchWithTokenBudget.
  destruct (stitchLoop_len pieces [] maxTokens 0) as [H1 H2]; [cbn; lia | lia |].
  pose proof (join_len (stitchLoop pieces maxTokens [] 0)) as Hj.
  cbn [length] in H2.
  assert (Hlen : len (join [LF] (stitchLoop pieces maxTokens [] 0))
                 <= 4 * maxTokens + Z.of_nat (length pieces) + maxWrapper pieces) by lia.
  split; [exact Hlen |]. unfold estimateTokens.
  replace (maxTokens + (Z.of_nat (length pieces) + maxWrapper pieces + 3) / 4)
    with ((maxTokens * 4 + (Z.of_nat (length pieces) + maxWrapper pieces + 3)) / 4).
  - apply Z.div_le_mono; lia.
  - rewrite Z.div_add_l by lia. lia.
Qed.

Lemma stitchWithTokenBudget_excess_witness :
  len (stitchWithTokenBudget [sampleBlock; sampleBlock] 18)
  <= 4 * 18 + Z.of_nat (length [sampleBlock; sampleBlock])
     + maxWrapper [sampleBlock; sampleBlock].
Proof.
  apply (stitchWithTokenBudget_excess [sampleBlock; sampleBlock] 18). lia.
Defined.

(** ** Provider calls of the hybrid pipeline *)

Lemma renderContext_run (o : Options) (P : Providers) (query : jsstring) :
  query <> [] ->
  run P (renderContext o query)
  = match embeddingsCreate P query with
    | Rejected e => (Rejected e, [EmbedCall query])
    | Resolved [] =>
        (Rejected (lit "Failed to generate embeddings for text."), [EmbedCall query])
    | Resolved (v :: _) =>
        match clientSearch P (hybridRequest o query v) with
        | Rejected e =>
            (Rejected e, [EmbedCall query; SearchCall (hybridRequest o query v)])
        | Resolved res =>
            (match res with
             | ResultsIterable rs | TopLevelIterable rs => Resolved (buildContext o rs)
             | _ => Rejected (lit "TypeError: not async iterable")
             end,
             [EmbedCall query; SearchCall (hybridRequest o query v)])
        end
    end.
Proof.
  intros Hq. destruct query as [|c q]; [done |].
  unfold renderContext, mbind, Prog_bind. cbn [getEmbeddingVector bind run].
  destruct (embeddingsCreate P (c :: q)) as [[|v more] | e]; [done | | done].
  cbn [searchCollect bind run]. fold (hybridRequest o (c :: q) v).
  destruct (clientSearch P (hybridRequest o (c :: q) v)) as [[rs | rs | rs |] | e];
    done.
Qed.

(** X17.  [renderContext] of the hybrid class makes at most two provider
    calls, always the embedding of the query first; it searches only
    after the embedding call returned a vector, with the query as search
    text and [topPerVariant] as [top]; a rejection of either provider and
    an empty embedding result reject the call; and it resolves only for
    the empty query (no call) or after both calls with the context built
    from the hits. *)
Theorem renderContext_provider_calls (o : Options) (P : Providers) (query : jsstring) :
  let outcome := fst (run P (renderContext o query)) in
  let calls := snd (run P (renderContext o query)) in
  (length calls <= 2)%nat
  /\ (query <> [] -> exists rest, calls = EmbedCall query :: rest)
  /\ (forall req, SearchCall req ∈ calls ->
        exists v more,
          embeddingsCreate P query = Resolved (v :: more)
          /\ req = hybridRequest o query v
          /\ calls = [EmbedCall query; SearchCall req])
  /\ (forall e, query <> [] -> embeddingsCreate P query = Rejected e ->
        outcome = Rejected e /\ calls = [EmbedCall query])
  /\ (query <> [] -> embeddingsCreate P query = Resolved [] ->
        outcome = Rejected (lit "Failed to generate embeddings for text.")
        /\ calls = [EmbedCall query])
  /\ (forall v more e, query <> [] ->
        embeddingsCreate P query = Resolved (v :: more) ->
        clientSearch P (hybridRequest o query v) = Rejected e ->
        outcome = Rejected e)
  /\ (forall s, outcome = Resolved s ->
        (query = [] /\ s = [] /\ calls = [])
        \/ exists v more rs,
             embeddingsCreate P query = Resolved (v :: more)
             /\ (clientSearch P (hybridRequest o query v) = Resolved (ResultsIterable rs)
                 \/ clientSearch P (hybridRequest o query v)
                    = Resolved (TopLevelIterable rs))
             /\ s = buildContext o rs
             /\ calls = [EmbedCall query; SearchCall (hybridRequest o query v)]).
Proof.
  intros outcome calls. subst outcome calls.
  destruct (decide (query = [])) as [-> | Hq].
  { cbn. split; [lia |]. split; [done |].
    split; [intros req Hin; by apply elem_of_nil in Hin |].
    split; [intros; congruence |]. split; [intros; congruence |].
    split; [intros; congruence |]. intros s [= <-]. by left. }
  rewrite (renderContext_run o P query Hq).
  destruct (embeddingsCreate P query) as [[|v more] | e] eqn:He.
  - cbn [fst snd length]. split; [lia |]. split; [by eexists |].
    split; [intros req Hin; apply list_elem_of_singleton in Hin; done |].
    split; [intros; congruence |]. split; [done |].
    split; [intros; congruence |]. intros s Hres. done.
  - destruct (clientSearch P (hybridRequest o query v)) as [res | e] eqn:Hs.
    + cbn [fst snd length]. split; [lia |]. split; [by eexists |]. split.
      { intros req Hin. exists v, more.
        apply elem_of_cons in Hin as [Hin | Hin]; [done |].
        apply list_elem_of_singleton in Hin. injection Hin as ->. done. }
      split; [done |]. split; [done |]. split.
      { intros v' more' e _ [= <- <-] Hrej. congruence. }
      intros s Hres. right. exists v, more.
      destruct res as [rs | rs | rs |]; try done; injection Hres as <-;
        exists rs; repeat split; tauto.
    + cbn [fst snd length]. split; [lia |]. split; [by eexists |]. split.
      { intros req Hin. exists v, more.
        apply elem_of_cons in Hin as [Hin | Hin]; [done |].
        apply list_elem_of_singleton in Hin. injection Hin as ->. done. }
      split; [done |]. split; [done |]. split; [| done].
      intros v' more' e' _ [= <- <-] Hrej. congruence.
  - cbn [fst snd length]. split; [lia |]. split; [by eexists |].
    split; [intros req Hin; apply list_elem_of_singleton in Hin; done |].
    split; [by intros e' _ [= <-] |]. split; [intros; congruence |].
    split; [intros; congruence |]. intros s Hres. done.
Qed.

(** ** The vector-only pipeline *)




(** ** The stitched string of the vector-only pipeline *)

Lemma collapseRuns_spaces (f : Z -> bool) (s : jsstring) :
  Forall (fun c => f c = true -> c = SP) (collapseRuns f s).
Proof.
  induction s as [|c s IH]; cbn [collapseRuns]; [constructor |].
  destruct (f c) eqn:E.
  - destruct s as [|d s]; [by repeat constructor |].
    destruct (f d); [done | by constructor].
  - constructor; [congruence | done].
Qed.

Lemma collapseRuns_chain_gen (f : Z -> bool) (p : Z) (s : jsstring) :
  f SP = true ->
  p <> SP \/ match s with c :: _ => f c = false | [] => True end ->
  chain noDoubleSpace p (collapseRuns f s).
Proof.
  intros Hsp. revert p.
  induction s as [|c t IH]; intros p Hp; cbn [collapseRuns]; [done |].
  destruct (f c) eqn:Ec.
  - destruct Hp as [Hp | Hp]; [| congruence].
    destruct t as [|d t'].
    + cbn. split; [| done]. intros [? _]. done.
    + destruct (f d) eqn:Ed.
      * apply IH. by left.
      * cbn [chain]. split; [intros [? _]; done |]. apply IH. by right.
  - cbn [chain]. split.
    + intros [_ ->]. congruence.
    + apply IH. left. intros ->. congruence.
Qed.

(** X19.  Whatever the hits, in whatever order the sort leaves them, and
    whatever the cleaning step returns, the string the vector-only
    pipeline builds has no white space except single spaces between
    other units: no line feed or tab, never two spaces in a row, none
    at either end. *)
Theorem vectorOnly_buildContext_single_spaced (clean : jsstring -> jsstring)
    (o : VectorOnly.Options) (results : list SearchResult) :
  let out := VectorOnly.buildContext clean o results in
  Forall (fun c => isSpace c = true -> c = SP) out
  /\ (forall a b, out <> a ++ [SP; SP] ++ b)
  /\ headOk out /\ lastOk out
  /\ trim out = out.
Proof.
  intros out. subst out. unfold VectorOnly.buildContext.
  set (j := join [LF] _).
  split; [apply trim_Forall, collapseRuns_spaces |].
  split.
  { intros a b E.
    pose proof (trim_pairwise noDoubleSpace (collapseRuns isSpace j)) as H.
    rewrite E in H.
    assert (Hc : pairwise noDoubleSpace (collapseRuns isSpace j)).
    { apply (chain_pairwise _ 0), collapseRuns_chain_gen; [done | by left]. }
    apply H, pairwise_suffix in Hc. cbn in Hc. destruct Hc as [Hc _].
    by apply Hc. }
  split; [apply trim_headOk |]. split; [apply trim_lastOk |].
  apply trim_fixed; [apply trim_headOk | apply trim_lastOk].
Qed.

(** ** Ranking and cutting the hits *)

Lemma insertSorted_Permutation (x : SearchResult) (l : list SearchResult) :
  VectorOnly.insertSorted x l ≡ₚ x :: l.
Proof.
  induction l as [|y l IH]; cbn; [done |].
  destruct (PrimFloat.ltb _ _); [| done].
  rewrite IH. apply Permutation_swap.
Qed.

Lemma slice_list_length {A} (l : list A) (n : Z) :
  0 <= n -> Z.of_nat (length (slice_list l n)) = Z.min n (Z.of_nat (length l)).
Proof.
  intros Hn. unfold slice_list, clampIndex.
  destruct (Z.ltb_spec n 0); [lia |]. rewrite length_take. lia.
Qed.

Lemma sortByScore_Permutation (l : list SearchResult) :
  VectorOnly.sortByScore l ≡ₚ l.
Proof.
  induction l as [|x l IH]; [done |]. unfold VectorOnly.sortByScore in *.
  cbn [foldr]. by rewrite insertSorted_Permutation, IH.
Qed.

(** The stable sort itself is one of the sorts the language allows. *)
Lemma sortByScore_SortsByScore : SortsByScore VectorOnly.sortByScore.
Proof. intros l. split; [apply sortByScore_Permutation | done]. Qed.

(** X20.  Sorting the hits by score only reorders them, and hits that
    all lack a score keep their order.  With [maxReturn] at least 0 the
    pipeline formats at most [maxReturn] blocks, and no more blocks than
    there are hits.  The same holds of every sort the language allows
    the engine, whatever it does with scores that are NaN. *)
Theorem vectorOnly_ranking (clean : jsstring -> jsstring)
    (results : list SearchResult) (maxReturn : Z) :
  VectorOnly.sortByScore results ≡ₚ results
  /\ (Forall (fun r => score r = None) results ->
      VectorOnly.sortByScore results = results)
  /\ (0 <= maxReturn ->
      Z.of_nat (length (flat_map (VectorOnly.resultBlock clean)
                          (slice_list (VectorOnly.sortByScore results) maxReturn)))
      <= Z.min maxReturn (Z.of_nat (length results)))
  /\ (forall sort, SortsByScore sort ->
        sort results ≡ₚ results
        /\ (Forall (fun r => score r = None) results -> sort results = results)
        /\ (0 <= maxReturn ->
            Z.of_nat (length (flat_map (VectorOnly.resultBlock clean)
                                (slice_list (sort results) maxReturn)))
            <= Z.min maxReturn (Z.of_nat (length results)))).
Proof.
  pose proof (sortByScore_Permutation results) as Hperm.
  assert (Hnone : Forall (fun r => score r = None) results ->
                  VectorOnly.sortByScore results = results).
  { clear Hperm. induction 1 as [|x l Hx Hl IH]; [done |].
    unfold VectorOnly.sortByScore in *.
    cbn [foldr]. rewrite IH. destruct l as [|y l]; [done |].
    apply Forall_cons in Hl as [Hy _]. cbn [VectorOnly.insertSorted].
    unfold VectorOnly.byScoreDesc. rewrite Hx, Hy. cbn [default].
    by change (PrimFloat.ltb 0 (PrimFloat.sub 0 0)) with false. }
  assert (Hb : forall l, (length (flat_map (VectorOnly.resultBlock clean) l)
                          <= length l)%nat).
  { induction l as [|r l IH]; cbn [flat_map]; [done |].
    rewrite length_app. unfold VectorOnly.resultBlock at 1.
    destruct (trim _); cbn [length]; lia. }
  assert (Hcut : forall sorted, sorted ≡ₚ results -> 0 <= maxReturn ->
            Z.of_nat (length (flat_map (VectorOnly.resultBlock clean)
                                (slice_list sorted maxReturn)))
            <= Z.min maxReturn (Z.of_nat (length results))).
  { intros sorted Hp Hn.
    pose proof (slice_list_length sorted maxReturn Hn) as Hs.
    rewrite (Permutation_length Hp) in Hs.
    specialize (Hb (slice_list sorted maxReturn)). lia. }
  split; [exact Hperm |]. split; [exact Hnone |].
  split; [by apply Hcut |].
  intros sort Hsort. destruct (Hsort results) as [Hp He].
  split; [exact Hp |]. split; [| by apply Hcut].
  intros Hn. rewrite He; [by apply Hnone |].
  eapply Forall_impl; [exact Hn |]. intros r Hr. unfold scoreIsNaN.
  by rewrite Hr.
Qed.

Example vectorOnly_sort_sample :
  VectorOnly.sortByScore [hit "p" 0.2; hit "q" 0.9; hit "r" 0.5; hit "s" 0.9]
  = [hit "q" 0.9; hit "s" 0.9; hit "r" 0.5; hit "p" 0.2].
Proof. vm_compute. reflexivity. Qed.

(** ** The sentence cutter *)

Lemma lastTerm_snoc (s : jsstring) (c : Z) :
  lastTerm (s ++ [c]) = Hybrid.isTerminator c.
Proof. unfold lastTerm. by rewrite last_snoc. Qed.

Lemma noSplit_snoc (prev : bool) (s : jsstring) (c : Z) :
  noSplit prev s ->
  isSpace c && (match s with [] => prev | _ => lastTerm s end) = false ->
  noSplit prev (s ++ [c]).
Proof.
  revert prev. induction s as [|d s IH]; intros prev; cbn [app noSplit].
  - done.
  - intros [H1 H2] Hc. split; [done |]. apply IH; [done |].
    destruct s as [|e s]; [done |].
    unfold lastTerm in *. by rewrite last_cons_cons in Hc.
Qed.

Lemma headOk_snoc (s : jsstring) (c : Z) :
  s <> [] -> headOk s -> headOk (s ++ [c]).
Proof. by destruct s. Qed.

Lemma splitSentencesFrom_okParts (s : jsstring) :
  forall (first prev skipping : bool) (cur : jsstring),
    noSplit false (rev cur) -> prev = lastTerm (rev cur) ->
    (skipping = true -> cur = [] /\ first = false) ->
    (first = false -> skipping = false -> cur <> [] /\ headOk (rev cur)) ->
    okParts first (Hybrid.splitSentencesFrom prev skipping cur s).
Proof.
  induction s as [|c t IH]; intros first prev skipping cur Hns Hprev Hsk Hhd;
    cbn [Hybrid.splitSentencesFrom].
  - cbn. split; [done |]. split; [| done]. intros ->.
    destruct skipping; [by destruct Hsk as [-> _] | by apply Hhd].
  - destruct skipping.
    + destruct Hsk as [-> ->]; [done |].
      destruct (isSpace c) eqn:Ec.
      * by apply IH.
      * apply IH; cbn; try done. by rewrite Ec.
    + destruct (isSpace c && prev) eqn:E.
      * cbn [okParts]. split; [done |].
        split; [intros ->; by apply Hhd |].
        split; [intros _; apply andb_true_iff in E as [_ ->]; by rewrite <- Hprev |].
        by apply IH.
      * apply IH; cbn [rev].
        -- apply noSplit_snoc; [done |].
           destruct (rev cur) eqn:Er; [by rewrite andb_false_r |].
           by rewrite <- Hprev.
        -- by rewrite lastTerm_snoc.
        -- done.
        -- intros -> _. split; [done |].
           destruct (Hhd eq_refl eq_refl) as [Hne Hh].
           apply headOk_snoc; [| done]. intros Hr.
           apply (f_equal (@rev Z)) in Hr. by rewrite rev_involutive in Hr.
Qed.

Lemma okParts_filter (first : bool) (ps : list jsstring) :
  okParts first ps -> okParts first (List.filter (fun p => 0 <? len p) ps).
Proof.
  revert first. induction ps as [|p rest IH]; intros first; [done |].
  cbn [okParts List.filter]. intros (H1 & H2 & H3 & H4).
  destruct p as [|c p].
  - cbn. destruct rest as [|q rest]; [done |].
    by specialize (H3 ltac:(done)).
  - change (0 <? len (c :: p)) with (0 <? Z.of_nat (S (length p))).
    destruct (Z.ltb_spec 0 (Z.of_nat (S (length p)))); [| lia].
    cbn [okParts]. split; [done |]. split; [done |]. split; [| by apply IH].
    intros Hne. apply H3. intros ->. done.
Qed.

Lemma okParts_take (first : bool) (k : nat) (ps : list jsstring) :
  okParts first ps -> okParts first (take k ps).
Proof.
  revert first k. induction ps as [|p rest IH]; intros first k; [by destruct k |].
  destruct k as [|k]; [done |]. cbn [take okParts].
  intros (H1 & H2 & H3 & H4). split; [done |]. split; [done |].
  split; [| by apply IH]. intros Hne. apply H3. intros ->. by destruct k.
Qed.

Lemma sentences_okParts (text : jsstring) :
  okParts true (sentences text)
  /\ Forall (fun p => p <> []) (sentences text).
Proof.
  split.
  - apply okParts_filter, splitSentencesFrom_okParts; done.
  - apply List.Forall_forall. intros p Hp.
    apply List.filter_In in Hp as [_ Hp]. intros ->. done.
Qed.

(** Reading one part that holds no separator moves it into the current
    part. *)
Lemma splitSentencesFrom_part (p : jsstring) :
  forall (cur tail : jsstring),
    noSplit (lastTerm (rev cur)) p ->
    Hybrid.splitSentencesFrom (lastTerm (rev cur)) false cur (p ++ tail)
    = Hybrid.splitSentencesFrom (lastTerm (rev cur ++ p)) false
        (rev p ++ cur) tail.
Proof.
  induction p as [|c p IH]; intros cur tail; cbn [app noSplit].
  - intros _. by rewrite app_nil_r.
  - intros [Hc Hp]. cbn [Hybrid.splitSentencesFrom]. rewrite Hc.
    specialize (IH (c :: cur) tail). cbn [rev] in IH.
    rewrite lastTerm_snoc in IH. rewrite IH by done.
    cbn [rev]. by rewrite <- !app_assoc.
Qed.

Lemma splitSentencesFrom_rest (ps : list jsstring) :
  okParts false ps -> Forall (fun p => p <> []) ps -> ps <> [] ->
  Hybrid.splitSentencesFrom false true [] (join [SP] ps) = ps.
Proof.
  induction ps as [|p rest IH]; [done |].
  cbn [okParts]. intros (H1 & H2 & H3 & H4) Hne _.
  apply Forall_cons in Hne as [Hp Hrest].
  destruct p as [|c p]; [done |]. specialize (H2 eq_refl). cbn in H2.
  destruct H1 as [_ H1].
  destruct rest as [|q rest].
  - cbn [join Hybrid.splitSentencesFrom]. rewrite H2.
    pose proof (splitSentencesFrom_part p [c] [] H1) as E.
    rewrite app_nil_r in E. cbn [rev app] in E.
    change (lastTerm [c]) with (Hybrid.isTerminator c) in E. rewrite E.
    cbn [Hybrid.splitSentencesFrom]. rewrite rev_app_distr, rev_involutive.
    done.
  - rewrite join_cons by done. cbn [app Hybrid.splitSentencesFrom]. rewrite H2.
    pose proof (splitSentencesFrom_part p [c] ([SP] ++ join [SP] (q :: rest)) H1)
      as E.
    cbn [rev app] in E.
    change (lastTerm [c]) with (Hybrid.isTerminator c) in E. rewrite E.
    cbn [app Hybrid.splitSentencesFrom].
    specialize (H3 ltac:(done)). rewrite H3. cbn [isSpace]. change (isSpace SP && true) with true. cbv iota.
    rewrite rev_app_distr, rev_involutive. cbn [rev app].
    f_equal. by apply IH.
Qed.

Lemma splitSentences_join (ps : list jsstring) :
  okParts true ps -> Forall (fun p => p <> []) ps -> ps <> [] ->
  Hybrid.splitSentences (join [SP] ps) = ps.
Proof.
  destruct ps as [|p rest]; [done |].
  cbn [okParts]. intros (H1 & _ & H3 & H4) Hne _.
  apply Forall_cons in Hne as [Hp Hrest]. unfold Hybrid.splitSentences.
  destruct rest as [|q rest].
  - cbn [join].
    pose proof (splitSentencesFrom_part p [] [] H1) as E.
    rewrite !app_nil_r in E. cbn [rev app] in E.
    change (lastTerm []) with false in E. rewrite E.
    cbn [Hybrid.splitSentencesFrom]. by rewrite rev_involutive.
  - rewrite join_cons by done.
    pose proof (splitSentencesFrom_part p [] ([SP] ++ join [SP] (q :: rest)) H1)
      as E.
    cbn [rev app] in E. change (lastTerm []) with false in E.
    cbn [app]. rewrite E.
    cbn [app Hybrid.splitSentencesFrom]. rewrite app_nil_r.
    rewrite (H3 ltac:(done)). change (isSpace SP && true) with true. cbv iota.
    rewrite rev_involutive. f_equal. by apply splitSentencesFrom_rest.
Qed.

Lemma filter_nonempty_fixed (ps : list jsstring) :
  Forall (fun p => p <> []) ps ->
  List.filter (fun p => 0 <? len p) ps = ps.
Proof.
  induction 1 as [|p ps Hp _ IH]; [done |]. cbn [List.filter].
  destruct p; [done |]. rewrite IH.
  change (0 <? len (z :: p)) with (0 <? Z.of_nat (S (length p))).
  by destruct (Z.ltb_spec 0 (Z.of_nat (S (length p)))); [| lia].
Qed.

Lemma solid_app (a b : jsstring) : solid (a ++ b) = solid a ++ solid b.
Proof. apply List.filter_app. Qed.

Lemma solid_join (ps : list jsstring) :
  solid (join [SP] ps) = concat (List.map solid ps).
Proof.
  induction ps as [|p rest IH]; [done |].
  destruct rest as [|q rest]; [cbn; by rewrite app_nil_r |].
  rewrite join_cons by done. rewrite !solid_app, IH. done.
Qed.

Lemma solid_splitSentencesFrom (s : jsstring) :
  forall (prev skipping : bool) (cur : jsstring),
    (skipping = true -> cur = []) ->
    concat (List.map solid (Hybrid.splitSentencesFrom prev skipping cur s))
    = solid (rev cur) ++ solid s.
Proof.
  induction s as [|c t IH]; intros prev skipping cur Hsk;
    cbn [Hybrid.splitSentencesFrom].
  - cbn. by rewrite !app_nil_r.
  - destruct skipping.
    + rewrite Hsk by done. destruct (isSpace c) eqn:Ec.
      * rewrite IH by done. unfold solid. cbn. by rewrite Ec.
      * rewrite IH by done. unfold solid. cbn. by rewrite Ec.
    + destruct (isSpace c && prev) eqn:E.
      * apply andb_true_iff in E as [Ec _]. cbn [List.map concat].
        rewrite IH by done. unfold solid. cbn. by rewrite Ec.
      * rewrite IH by done. cbn [rev]. rewrite solid_app, <- app_assoc.
        by rewrite <- solid_app.
Qed.

Lemma solid_filter_nonempty (ps : list jsstring) :
  concat (List.map solid (List.filter (fun p => 0 <? len p) ps))
  = concat (List.map solid ps).
Proof.
  induction ps as [|p rest IH]; [done |]. cbn [List.filter].
  destruct p as [|c p]; [done |].
  change (0 <? len (c :: p)) with (0 <? Z.of_nat (S (length p))).
  destruct (Z.ltb_spec 0 (Z.of_nat (S (length p)))); [| lia].
  cbn [List.map concat]. by rewrite IH.
Qed.

(** X21.  Splitting the result of [firstNSentences] again gives exactly
    the sentences it was built from, so for [n] at least 0 it holds at
    most [n] sentences and cutting it again with the same [n] changes
    nothing.  Its text other than white space is a beginning of that of
    the input: the cutter only drops and shortens white space and cuts
    the end. *)
Theorem firstNSentences_resplit (text : jsstring) (n : Z) :
  sentences (Hybrid.firstNSentences text n) = slice_list (sentences text) n
  /\ solid (Hybrid.firstNSentences text n) `prefix_of` solid text
  /\ (0 <= n ->
      Z.of_nat (length (sentences (Hybrid.firstNSentences text n))) <= n
      /\ Hybrid.firstNSentences (Hybrid.firstNSentences text n) n
         = Hybrid.firstNSentences text n)
  /\ (n = 0 -> Hybrid.firstNSentences text n = []).
Proof.
  assert (Hre : sentences (Hybrid.firstNSentences text n)
                = slice_list (sentences text) n).
  { unfold Hybrid.firstNSentences. fold (sentences text).
    destruct (sentences_okParts text) as [Hok Hne].
    set (ps := slice_list (sentences text) n).
    assert (Hok' : okParts true ps) by by apply okParts_take.
    assert (Hne' : Forall (fun p => p <> []) ps) by by apply Forall_take.
    destruct (decide (ps = [])) as [-> | Hps]; [done |].
    unfold sentences. rewrite splitSentences_join by done.
    by apply filter_nonempty_fixed. }
  split; [exact Hre |]. split; [| split].
  - unfold Hybrid.firstNSentences. fold (sentences text).
    rewrite solid_join. unfold slice_list.
    set (k := Z.to_nat _).
    assert (Hs : solid text = concat (List.map solid (sentences text))).
    { unfold sentences, Hybrid.splitSentences.
      by rewrite solid_filter_nonempty, solid_splitSentencesFrom. }
    rewrite Hs. rewrite <- (take_drop k (sentences text)) at 2.
    rewrite List.map_app, concat_app. by eexists.
  - intros Hn. split.
    + rewrite Hre, slice_list_length by done. lia.
    + unfold Hybrid.firstNSentences at 1. fold (sentences (Hybrid.firstNSentences text n)).
      rewrite Hre. unfold Hybrid.firstNSentences. fold (sentences text).
      f_equal. unfold slice_list, clampIndex.
      destruct (Z.ltb_spec n 0); [lia |]. rewrite length_take.
      rewrite take_take. f_equal. lia.
  - intros ->. unfold Hybrid.firstNSentences, slice_list, clampIndex.
    change (0 <? 0) with false. cbv iota. by rewrite Z.min_l by lia.
Qed.

Example firstNSentences_sample :
  Hybrid.firstNSentences (lit "One.  Two! Three? Four. Five.") 4
  = lit "One. Two! Three? Four.".
Proof. vm_compute. reflexivity. Qed.

(** ** Deduplication inside the pipeline *)













